(** * soniakeys/astro: series-based planetary positions and Keplerian orbits

    A shallow embedding of [astro.go], [julian.go], [solarpos.go] (the
    Kepler solver and the orbit model) and of the VSOP87 loader and
    evaluator, together with the properties stated about them.

    Numbers.  Go's [float64] is rendered as the real numbers [R] of the
    Standard Library: every arithmetic operation is the exact one, rounding
    and the special values (NaN, infinities) are not represented.  Where
    rounding decides a statement (the wrap of the longitude), the code is
    given once more on the binary64 numbers of the kernel, in [F64].  Go's
    [int] is rendered as [Z]; the integers that occur (line numbers, term
    counts of at most seven digits, loop counters) are far from the 64-bit
    bounds.

    Failure.  A Go run-time panic (index or slice bound out of range) is a
    result of its own, [Panic]; a loop that may not finish is given fuel
    and [OutOfFuel] is returned when the fuel is used up. *)

From Stdlib Require Import Floats Reals Lra Lia ZArith String Ascii Bool List.
Import ListNotations.

Open Scope R_scope.

(* ================================================================== *)
(** ** Results of Go code that may panic or loop *)

Inductive outcome (A : Type) : Type :=
| Ret (a : A)
| Panic
| OutOfFuel.
Arguments Ret {A} a.
Arguments Panic {A}.
Arguments OutOfFuel {A}.

Definition bind {A B : Type} (m : outcome A) (k : A -> outcome B) : outcome B :=
  match m with
  | Ret a => k a
  | Panic => Panic
  | OutOfFuel => OutOfFuel
  end.

Notation "x <- m ;; k" := (bind m (fun x => k))
  (at level 61, m at next level, right associativity).

(** A Go [error] value.  [Errorf_line n cause] is one of the loader's
    [fmt.Errorf("Line %d: ...", n, ...)] values, [errors_New msg] is
    [errors.New(msg)]: a message and nothing else. *)
Inductive cause : Type :=
| ExpectedVersion (expected found : ascii)
| ExpectedBody (expected found : string)
| Verb (err : string).

Inductive error : Type :=
| Errorf_line (line : Z) (c : cause)
| errors_New (msg : string).

(* ================================================================== *)
(** ** astro.go *)

Definition K : R := 1720209895 / 100000000000.
Definition SOblJ2000 : R := 397777156 / 1000000000.
Definition COblJ2000 : R := 917482062 / 1000000000.
Definition J2000 : R := 2451545.
Definition JulianCentury : R := 36525.

Definition J2000Century (jde : R) : R := (jde - J2000) / JulianCentury.

(** [c[i]] on a Go slice: out of range is a panic. *)
Definition index {A : Type} (c : list A) (i : Z) : outcome A :=
  if (i <? 0)%Z then Panic
  else match nth_error c (Z.to_nat i) with
       | Some v => Ret v
       | None => Panic
       end.

(** The loop of [Horner]: [for i > 0 { i--; y = y*x + c[i] }].  The loop
    runs [i] times when [i] is positive, so [Z.to_nat i] is fuel enough. *)
Fixpoint Horner_loop (x : R) (c : list R) (fuel : nat) (i : Z) (y : R)
  : outcome R :=
  if (0 <? i)%Z then
    match fuel with
    | O => OutOfFuel
    | S fuel' =>
        let i' := (i - 1)%Z in
        ci <- index c i' ;;
        Horner_loop x c fuel' i' (y * x + ci)
    end
  else Ret y.

Definition Horner (x : R) (c : list R) : outcome R :=
  let i := (Z.of_nat (length c) - 1)%Z in
  y <- index c i ;;
  Horner_loop x c (Z.to_nat i) i y.

(** [math.Mod(x, y)]: [x - y * trunc (x / y)], the sign of the result is
    that of [x]. *)
Definition trunc (q : R) : Z :=
  if Rle_dec 0 q then Int_part q else (- Int_part (- q))%Z.

Definition math_Mod (x y : R) : R := x - y * IZR (trunc (x / y)).

Definition PMod (x y : R) : R :=
  let r := math_Mod x y in
  if Rlt_dec r 0 then r + y else r.

(* ================================================================== *)
(** ** solarpos.go: the Kepler solver *)

(** [iterateDecimalPlaces]: the pair that Go returns, a value and an
    [error] that is [nil] ([None]) on success. *)
Fixpoint iterate_loop (better : R -> R) (d : R) (start : R) (iters : nat)
  : R * option error :=
  match iters with
  | O => (0, Some (errors_New "Maximum iterations reached"))
  | S iters' =>
      let n := better start in
      if Rlt_dec (Rabs (n - start)) d then (n, None)
      else iterate_loop better d n iters'
  end.

Definition iterateDecimalPlaces (better : R -> R) (start : R)
    (places maxIterations : Z) : R * option error :=
  let d := powerRZ 10 (- places) in
  iterate_loop better d start (Z.to_nat maxIterations).

(** The improvement function [f] of [kepler2b], with Steele's limit. *)
Definition kepler2b_f (e M : R) (E0 : R) : R :=
  let se := sin E0 in
  let ce := cos E0 in
  let d := (M + e * se - E0) / (1 - e * ce) in
  let d := if Rlt_dec (1/2) d then 1/2
           else if Rlt_dec d (-(1/2)) then -(1/2) else d in
  E0 + d.

Definition kepler2b (e M : R) (places : Z) : R * option error :=
  iterateDecimalPlaces (kepler2b_f e M) M places places.

(** One pass of the [for] loop of [kepler3] on the pair [(E0, d)]. *)
Definition kepler3_step (e M : R) (s : R * R) : R * R :=
  let '(E0, d) := s in
  let M1 := E0 - e * sin E0 in
  let E0 := if Rlt_dec (M - M1) 0 then E0 - d else E0 + d in
  (E0, d * (1/2)).

Fixpoint kepler3_loop (e M : R) (iters : nat) (s : R * R) : R * R :=
  match iters with
  | O => s
  | S iters' => kepler3_loop e M iters' (kepler3_step e M s)
  end.

Definition kepler3 (e M : R) : R :=
  let M := PMod M (2 * PI) in
  let '(f, M) := if Rlt_dec PI M then ((-1)%Z, 2 * PI - M) else (1%Z, M) in
  let E0 := PI * (1/2) in
  let d := PI * (1/4) in
  let '(E0, _) := kepler3_loop e M 53 (E0, d) in
  if (f <? 0)%Z then - E0 else E0.

(** [kepler]: the test is [err != nil], as in the source. *)
Definition kepler (e M : R) : R :=
  match kepler2b e M 15 with
  | (E, Some _) => E
  | (_, None) => kepler3 e M
  end.

Definition trueAnomaly (E e : R) : R :=
  2 * atan (sqrt ((1 + e) / (1 - e)) * tan (E * (1/2))).

Definition radius (E e a : R) : R := a * (1 - e * cos E).

(* ================================================================== *)
(** ** solarpos.go: the orbit model *)

Definition Hypot (p q : R) : R := sqrt (p * p + q * q).

(** [math.Atan2(y, x)]: the angle of the point [(x, y)], in [(-PI, PI]]. *)
Definition Atan2 (y x : R) : R :=
  if Rlt_dec 0 x then atan (y / x)
  else if Rlt_dec x 0 then
    (if Rle_dec 0 y then atan (y / x) + PI else atan (y / x) - PI)
  else if Rlt_dec 0 y then PI / 2
  else if Rlt_dec y 0 then - (PI / 2)
  else 0.

Record Elements : Type := {
  Axis : R;   (* semimajor axis, a, in AU *)
  Ecc : R;    (* eccentricity, e *)
  Inc : R;    (* inclination, i, in radians *)
  ArgP : R;   (* argument of perihelion *)
  Node : R;   (* longitude of ascending node *)
  TimeP : R   (* time of perihelion, as jde *)
}.

Record Orbit : Type := {
  k : Elements;
  n : R;
  _A : R; _B : R; _C : R;
  a : R; b : R; c : R
}.

Definition NewOrbit (k : Elements) : Orbit :=
  let se := SOblJ2000 in
  let ce := COblJ2000 in
  let sO := sin (Node k) in
  let cO := cos (Node k) in
  let si := sin (Inc k) in
  let ci := cos (Inc k) in
  let F := cO in
  let G := sO * ce in
  let H := sO * se in
  let P := - sO * ci in
  let Q := cO * ci * ce - si * se in
  let R := cO * ci * se + si * ce in
  {| k := k;
     n := K / Axis k / sqrt (Axis k);
     _A := Atan2 F P; _B := Atan2 G Q; _C := Atan2 H R;
     a := Hypot F P; b := Hypot G Q; c := Hypot H R |}.

Definition Position (o : Orbit) (jde : R) : R * R * R * R :=
  let M := n o * (jde - TimeP (k o)) in
  let E := kepler (Ecc (k o)) M in
  let r := radius E (Ecc (k o)) (Axis (k o)) in
  let v := trueAnomaly E (Ecc (k o)) in
  (r * a o * sin (_A o + ArgP (k o) + v),
   r * b o * sin (_B o + ArgP (k o) + v),
   r * c o * sin (_C o + ArgP (k o) + v),
   r).

(* ================================================================== *)
(** ** The VSOP87 tables and their evaluation *)

Definition nPlanets : Z := 8.

Definition ext : list string :=
  ["mer"; "ven"; "ear"; "mar"; "jup"; "sat"; "ura"; "nep"]%string.

Definition b7 : list string :=
  ["MERCURY"; "VENUS  "; "EARTH  "; "MARS   ";
   "JUPITER"; "SATURN "; "URANUS "; "NEPTUNE"]%string.

Record abc : Type := { abc_a : R; abc_b : R; abc_c : R }.

(** [type coeff [6][]abc]: an array of exactly six term lists. *)
Record coeff : Type := {
  pow0 : list abc; pow1 : list abc; pow2 : list abc;
  pow3 : list abc; pow4 : list abc; pow5 : list abc
}.

Definition slots (s : coeff) : list (list abc) :=
  [pow0 s; pow1 s; pow2 s; pow3 s; pow4 s; pow5 s].

(** The zero value of [coeff]: six nil slices. *)
Definition coeff_zero : coeff :=
  {| pow0 := []; pow1 := []; pow2 := []; pow3 := []; pow4 := []; pow5 := [] |}.

(** [c[it] = v] on the array: an index of 6 or more is a panic. *)
Definition set_slot (s : coeff) (it : Z) (v : list abc) : outcome coeff :=
  match it with
  | 0%Z => Ret {| pow0 := v; pow1 := pow1 s; pow2 := pow2 s;
                  pow3 := pow3 s; pow4 := pow4 s; pow5 := pow5 s |}
  | 1%Z => Ret {| pow0 := pow0 s; pow1 := v; pow2 := pow2 s;
                  pow3 := pow3 s; pow4 := pow4 s; pow5 := pow5 s |}
  | 2%Z => Ret {| pow0 := pow0 s; pow1 := pow1 s; pow2 := v;
                  pow3 := pow3 s; pow4 := pow4 s; pow5 := pow5 s |}
  | 3%Z => Ret {| pow0 := pow0 s; pow1 := pow1 s; pow2 := pow2 s;
                  pow3 := v; pow4 := pow4 s; pow5 := pow5 s |}
  | 4%Z => Ret {| pow0 := pow0 s; pow1 := pow1 s; pow2 := pow2 s;
                  pow3 := pow3 s; pow4 := v; pow5 := pow5 s |}
  | 5%Z => Ret {| pow0 := pow0 s; pow1 := pow1 s; pow2 := pow2 s;
                  pow3 := pow3 s; pow4 := pow4 s; pow5 := v |}
  | _ => Panic
  end.

Record V87Planet : Type := { v_l : coeff; v_b : coeff; v_r : coeff }.

(** The inner loop of [sum]: [cf[x] = 0], then the terms are added from
    the last one to the first. *)
Definition term_sum (tau : R) (terms : list abc) : R :=
  fold_left (fun acc t => acc + abc_a t * cos (abc_b t + abc_c t * tau))
            (rev terms) 0.

(** The buffer [cf] when the outer loop of [sum] is done. *)
Definition sum_cf (tau : R) (series : coeff) : list R :=
  map (term_sum tau) (slots series).

(** [cf[:len(series)]], the coefficients handed to [Horner]. *)
Definition sum_args (tau : R) (series : coeff) : list R :=
  firstn (length (slots series)) (sum_cf tau series).

(** The closure [sum] of [Position2000]. *)
Definition sum (tau : R) (series : coeff) : outcome R :=
  Horner tau (sum_args tau series).

(** [unit.Angle.Mod1] of the package github.com/soniakeys/unit, which is
    not part of this repository: the angle wrapped to one revolution.  It
    is written with this repository's [PMod], as the repository itself
    does: where [kepler3] of the second copy of solarpos.go calls
    [M.Mod1()], [kepler3] of solarpos.go calls [PMod(M, 2*math.Pi)]. *)
Definition Mod1 (x : R) : R := PMod x (2 * PI).

Definition Position2000 (vt : V87Planet) (jde : R) : outcome (R * R * R) :=
  let T := J2000Century jde in
  let tau := T * (1/10) in
  sl <- sum tau (v_l vt) ;;
  sb <- sum tau (v_b vt) ;;
  sr <- sum tau (v_r vt) ;;
  Ret (Mod1 sl, sb, sr).

(** The number of slots of a table that hold at least one term. *)
Definition populated (series : coeff) : nat :=
  length (filter (fun terms => negb (Nat.eqb (length terms) 0)) (slots series)).

(* ================================================================== *)
(** ** The VSOP87 loader *)

Definition byte (ch : ascii) : Z := Z.of_N (N_of_ascii ch).

Definition fileVersion : ascii := "2"%char.

(** [s[i]] on a Go string. *)
Definition byte_at (s : string) (i : nat) : outcome ascii :=
  match String.get i s with
  | Some ch => Ret ch
  | None => Panic
  end.

(** [s[lo:hi]] on a Go string: a panic unless [lo <= hi <= len(s)]. *)
Definition slice (s : string) (lo hi : nat) : outcome string :=
  if (Nat.leb lo hi && Nat.leb hi (String.length s))%bool
  then Ret (substring lo (hi - lo) s)
  else Panic.

(** [lines[lo:hi]] on the slice that [strings.Split] returns, whose
    capacity is its length: a panic unless [0 <= lo <= hi <= len(lines)]. *)
Definition slice_lines (lines : list string) (lo hi : Z) : outcome (list string) :=
  if ((0 <=? lo) && (lo <=? hi) && (hi <=? Z.of_nat (length lines)))%Z%bool
  then Ret (firstn (Z.to_nat (hi - lo)) (skipn (Z.to_nat lo) lines))
  else Panic.

(** [strings.TrimSpace], on the white space of ASCII. *)
Definition is_space (ch : ascii) : bool :=
  let v := byte ch in
  ((v =? 32) || ((9 <=? v) && (v <=? 13)))%Z%bool.

Fixpoint trim_left (s : string) : string :=
  match s with
  | EmptyString => EmptyString
  | String ch s' => if is_space ch then trim_left s' else s
  end.

Fixpoint trim_right (s : string) : string :=
  match s with
  | EmptyString => EmptyString
  | String ch s' =>
      match trim_right s' with
      | EmptyString => if is_space ch then EmptyString else String ch EmptyString
      | t => String ch t
      end
  end.

Definition TrimSpace (s : string) : string := trim_right (trim_left s).

(** [strconv.Atoi]: an optional sign and decimal digits, at least one. *)
Fixpoint digits (s : string) (acc : Z) : option Z :=
  match s with
  | EmptyString => Some acc
  | String ch s' =>
      let d := (byte ch - 48)%Z in
      if ((0 <=? d) && (d <=? 9))%Z%bool then digits s' (acc * 10 + d)%Z
      else None
  end.

Definition Atoi (s : string) : option Z :=
  match s with
  | EmptyString => None
  | String ch s' =>
      if Ascii.eqb ch "-" then
        match s' with
        | EmptyString => None
        | _ => option_map Z.opp (digits s' 0%Z)
        end
      else if Ascii.eqb ch "+" then
        match s' with
        | EmptyString => None
        | _ => digits s' 0%Z
        end
      else digits s 0%Z
  end.

(** [strings.Split(s, "\n")]. *)
Definition newline : ascii := "010"%char.

Fixpoint Split_nl (s : string) : list string :=
  match s with
  | EmptyString => [EmptyString]
  | String ch s' =>
      if Ascii.eqb ch newline then EmptyString :: Split_nl s'
      else match Split_nl s' with
           | h :: t => String ch h :: t
           | [] => [String ch EmptyString]
           end
  end.

(** The file system as [ioutil.ReadFile] sees it, and the record of the
    names it was asked for. *)
Record world : Type := {
  files : string -> option string;
  reads : list string
}.

Definition ReadFile (w : world) (name : string) : world * (string + error) :=
  ({| files := files w; reads := reads w ++ [name] |},
   match files w name with
   | Some data => inl data
   | None => inr (errors_New "open: no such file or directory")
   end).

Section Loader.

(** [strconv.ParseFloat(s, 64)], as far as it succeeds or fails. *)
Variable ParseFloat : string -> option R.

(** The body of [for _, line := range lines[n : n+in]]: [n] is the index
    of the first data line, [cx] the number of terms read so far and
    [acc] the part [cbuf[:cx]] of the buffer, last term first. *)
Fixpoint parse_block (block : list string) (n cx : Z) (acc : list abc)
  : outcome (list abc + error) :=
  match block with
  | [] => Ret (inl (rev acc))
  | line :: block' =>
      if (2047 <=? cx)%Z then Panic
      else
        let parseError := Errorf_line (n + cx + 1) (Verb "strconv.ParseFloat") in
        sa <- slice line 79 97 ;;
        match ParseFloat (TrimSpace sa) with
        | None => Ret (inr parseError)
        | Some va =>
            sb <- slice line 98 111 ;;
            match ParseFloat sb with
            | None => Ret (inr parseError)
            | Some vb =>
                sc <- slice line 111 131 ;;
                match ParseFloat (TrimSpace sc) with
                | None => Ret (inr parseError)
                | Some vc =>
                    parse_block block' n (cx + 1)
                      ({| abc_a := va; abc_b := vb; abc_c := vc |} :: acc)
                end
            end
        end
  end.

(** [(c *coeff) parse]: the table [c] is threaded through, the result is
    the table with the pair [(n, err)] that Go returns.  Each pass of the
    outer [for] loop uses one unit of fuel. *)
Fixpoint parse (fuel : nat) (c : coeff) (ic : ascii) (ibody : Z)
    (lines : list string) (n : Z) (au : bool)
  : outcome (coeff * (Z * option error)) :=
  match fuel with
  | O => OutOfFuel
  | S fuel' =>
      if (n <? Z.of_nat (length lines))%Z then
        line <- index lines n ;;
        if Nat.ltb (String.length line) 132 then Ret (c, (n, None))
        else
          ch41 <- byte_at line 41 ;;
          if negb (Ascii.eqb ch41 ic) then Ret (c, (n, None))
          else
            iv <- byte_at line 17 ;;
            if negb (Ascii.eqb iv fileVersion) then
              Ret (c, (n, Some (Errorf_line (n + 1)
                                  (ExpectedVersion fileVersion iv))))
            else
              bo <- slice line 22 29 ;;
              name <- index b7 ibody ;;
              if negb (String.eqb bo name) then
                Ret (c, (n, Some (Errorf_line (n + 1)
                                    (ExpectedBody name bo))))
              else
                ch59 <- byte_at line 59 ;;
                let it := ((byte ch59 - 48) mod 256)%Z in
                cnt <- slice line 60 67 ;;
                match Atoi (TrimSpace cnt) with
                | None =>
                    Ret (c, (n, Some (Errorf_line (n + 1)
                                        (Verb "strconv.Atoi"))))
                | Some in_ =>
                    if (in_ =? 0)%Z then
                      (* continue *)
                      parse fuel' c ic ibody lines n au
                    else if (in_ >? Z.of_nat (length lines) - n)%Z then
                      Ret (c, (n, Some (errors_New "Unexpected end of file.")))
                    else
                      let n := (n + 1)%Z in
                      block <- slice_lines lines n (n + in_) ;;
                      res <- parse_block block n 0 [] ;;
                      match res with
                      | inr err => Ret (c, (n, Some err))
                      | inl terms =>
                          c' <- set_slot c it terms ;;
                          parse fuel' c' ic ibody lines (n + in_)%Z au
                      end
                end
      else Ret (c, (n, None))
  end.

(** [LoadPlanetPath]: the pair that Go returns, a planet (or [nil]) and
    an error (or [nil]), together with the world after the call. *)
Definition LoadPlanetPath (fuel : nat) (w : world) (ibody : Z) (path : string)
  : outcome (world * (option V87Planet * option error)) :=
  if ((ibody <? 0) || (ibody >=? nPlanets))%Z%bool then
    Ret (w, (None, Some (errors_New "Invalid planet.")))
  else
    e <- index ext ibody ;;
    let '(w, res) := ReadFile w (path ++ "/VSOP87B." ++ e) in
    match res with
    | inr err => Ret (w, (None, Some err))
    | inl data =>
        let lines := Split_nl data in
        let n := 0%Z in
        p1 <- parse fuel coeff_zero "1" ibody lines n false ;;
        let '(vl, (n, err)) := p1 in
        match err with
        | Some err => Ret (w, (None, Some err))
        | None =>
            p2 <- parse fuel coeff_zero "2" ibody lines n false ;;
            let '(vb, (n, err)) := p2 in
            match err with
            | Some err => Ret (w, (None, Some err))
            | None =>
                p3 <- parse fuel coeff_zero "3" ibody lines n true ;;
                let '(vr, (n, err)) := p3 in
                match err with
                | Some err => Ret (w, (None, Some err))
                | None =>
                    Ret (w, (Some {| v_l := vl; v_b := vb; v_r := vr |}, None))
                end
            end
        end
    end.

End Loader.

(* ================================================================== *)
(** ** Reference notions used in the statements *)

(** The polynomial with coefficients [c], the first one at power [i]:
    [c[0] * x^i + c[1] * x^(i+1) + ...]. *)
Fixpoint poly (x : R) (c : list R) (i : nat) : R :=
  match c with
  | [] => 0
  | ci :: c' => ci * x ^ i + poly x c' (S i)
  end.

(** The mean anomaly that an eccentric anomaly [E] implies. *)
Definition implied (e E : R) : R := E - e * sin E.

(** A bisection run towards the target [Mr]: [E 0] is [PI/2], the step
    number [j] has size [PI/4 / 2^j] and goes up when the implied mean
    anomaly is below the target and down when it is above. *)
Definition bisection_run (e Mr : R) (E : nat -> R) (steps : nat) : Prop :=
  E O = PI / 2 /\
  forall j, (j < steps)%nat ->
    let step := PI / 4 / 2 ^ j in
    (E (S j) = E j + step \/ E (S j) = E j - step) /\
    (implied e (E j) < Mr -> E (S j) = E j + step) /\
    (implied e (E j) > Mr -> E (S j) = E j - step).

(** An error that names a line. *)
Definition carries_line (err : error) : Prop :=
  exists line c, err = Errorf_line line c.

(* ================================================================== *)
(** ** Concrete inputs *)

Definition spaces (w : nat) : string :=
  string_of_list_ascii (repeat " "%char w).

(** A header line of a VSOP87B file, 132 columns wide: [body] is the
    seven-column name, [ic] the series index, [power] the power of time and
    [count] the seven-column number of terms. *)
Definition header (body : string) (ic power : ascii) (count : string) : string :=
  (" VSOP87 VERSION B2    " ++ body ++ "   VARIABLE " ++ String ic ""
   ++ " (LBR)       *T**" ++ String power "" ++ count
   ++ " TERMS    HELIOCENTRIC DYNAMICAL ECLIPTIC AND EQUINOX J2000"
   ++ spaces 6)%string.

Definition header_zero : string := header "EARTH  " "1" "0" "      0".
Definition header_one : string := header "EARTH  " "1" "0" "      1".
Definition header_two : string := header "EARTH  " "1" "0" "      2".

(** A data line: the three numbers sit in columns 79-96, 98-110 and
    111-130. *)
Definition data_line : string :=
  (" 2310    1  0  0  1  0  0  0  0  0  0  0  0" ++ spaces 36
   ++ "     1.75347045673" ++ " " ++ "0.00000000000"
   ++ "       0.00000000000" ++ " ")%string.

Definition Earth : Z := 2.

(** A world with one file, [dir/VSOP87B.ear]. *)
Definition world_of (data : string) : world :=
  {| files := fun name =>
       if String.eqb name "dir/VSOP87B.ear" then Some data else None;
     reads := [] |}.

Definition term (va vb vc : R) : abc := {| abc_a := va; abc_b := vb; abc_c := vc |}.

(** A radius table with terms in the powers 0, 1 and 2 only. *)
Definition radius_table : coeff :=
  {| pow0 := [term 1 0 0]; pow1 := [term 1 0 0]; pow2 := [term 1 0 0];
     pow3 := []; pow4 := []; pow5 := [] |}.

Definition circular : Elements :=
  {| Axis := 1; Ecc := 0; Inc := 0; ArgP := 0; Node := 0; TimeP := 0 |}.

(** A file of three lines: a longitude block of power 0 without terms,
    then a longitude block of power 1 with its one term. *)
Definition zero_count_file : string :=
  (header_zero ++ String newline
     (header "EARTH  " "1" "1" "      1" ++ String newline
        (data_line ++ String newline "")))%string.

(** The same file without its first block. *)
Definition one_block_file : string :=
  (header "EARTH  " "1" "1" "      1" ++ String newline
     (data_line ++ String newline ""))%string.

(* ================================================================== *)
(** ** astro.go: integer floor division *)

(** [floorDiv]: Go's [/] on integers truncates towards zero ([Z.quot])
    and panics on a zero divisor.  The arithmetic is that of [Z]: the
    statements about this function bound its arguments so that no value
    leaves the range of [int]. *)
Definition floorDiv (x y : Z) : outcome Z :=
  if (y =? 0)%Z then Panic
  else if Bool.eqb (x <? 0)%Z (y <? 0)%Z then Ret (Z.quot x y)
  else Ret (Z.quot x y - 1)%Z.

(** [floorDiv64], the same body on [int64]. *)
Definition floorDiv64 (x y : Z) : outcome Z :=
  if (y =? 0)%Z then Panic
  else if Bool.eqb (x <? 0)%Z (y <? 0)%Z then Ret (Z.quot x y)
  else Ret (Z.quot x y - 1)%Z.

(* ================================================================== *)
(** ** julian.go *)

(** [MeeusCalendarGregorianToJD]; [CalendarGregorianToJD] of the second
    copy of the file has the same body. *)
Definition MeeusCalendarGregorianToJD (y m : Z) (d : R) : outcome R :=
  let '(y, m) := if ((m =? 1) || (m =? 2))%Z%bool
                 then ((y - 1)%Z, (m + 12)%Z) else (y, m) in
  a <- floorDiv y 100 ;;
  a4 <- floorDiv a 4 ;;
  let b := (2 - a + a4)%Z in
  t1 <- floorDiv64 (36525 * (y + 4716)) 100 ;;
  t2 <- floorDiv (306 * (m + 1)) 10 ;;
  Ret (IZR t1 + IZR (t2 + b) + d - 1524.5).

Definition FFCalendarGregorianToJD (y m : Z) (d : R) : R :=
  d - 0.5
  + IZR (- 32075
         + Z.quot (1461 * (y + 4800 + Z.quot (m - 14) 12)) 4
         + Z.quot (367 * (m - 2 - Z.quot (m - 14) 12 * 12)) 12
         - Z.quot (3 * Z.quot (y + 4900 + Z.quot (m - 14) 12) 100) 4)%Z.

(** The constants of type [dsf], in the order of the source. *)
Module Dsf.
Definition mar : Z := 0.
Definition apr : Z := mar + 31.
Definition may : Z := apr + 30.
Definition jun : Z := may + 31.
Definition jul : Z := jun + 30.
Definition aug : Z := jul + 31.
Definition sep : Z := aug + 31.
Definition oct : Z := sep + 30.
Definition nov : Z := oct + 31.
Definition dec : Z := nov + 30.
Definition jan : Z := dec + 31.
Definition feb : Z := jan + 31.
End Dsf.

Definition daysSinceFeb : list Z :=
  [0%Z; Dsf.jan; Dsf.feb; Dsf.mar; Dsf.apr; Dsf.may; Dsf.jun; Dsf.jul;
   Dsf.aug; Dsf.sep; Dsf.oct; Dsf.nov; Dsf.dec].

Definition CalendarGregorianToMJD (y m : Z) (d : R) : outcome R :=
  let y := if (m <=? 2)%Z then (y - 1)%Z else y in
  ds <- index daysSinceFeb m ;;
  Ret (IZR (ds + 365 * y + Z.quot y 4 - Z.quot y 100 + Z.quot y 400 - 678882)
       + d).

(** The Gregorian calendar, for the statements: leap years and the
    number of days of a month. *)
Definition leap_year (y : Z) : bool :=
  ((y mod 4 =? 0) && (negb (y mod 100 =? 0) || (y mod 400 =? 0)))%Z%bool.

Definition days_in_month (y m : Z) : Z :=
  match m with
  | 2%Z => if leap_year y then 29%Z else 28%Z
  | 4%Z | 6%Z | 9%Z | 11%Z => 30%Z
  | _ => 31%Z
  end.

(** The month after [(y, m)]. *)
Definition next_month (y m : Z) : Z * Z :=
  if (m =? 12)%Z then ((y + 1)%Z, 1%Z) else (y, (m + 1)%Z).

(* ================================================================== *)
(** ** astro.go: sidereal time and the solar ephemeris *)

(** The fractional part that [math.Modf] returns, with the sign of its
    argument. *)
Definition Modf_frac (x : R) : R := x - IZR (trunc x).

Definition Lst (mjd long : R) : R :=
  let t := (mjd - 15019.5) / 36525 in
  let th := (6.6460656 + (2400.051262 + 0.00002581 * t) * t) / 24 in
  let ut := Modf_frac mjd in
  let ut := if Rlt_dec ut 0 then ut + 1 else ut in
  let s := Modf_frac (th + ut + long) in
  let s := if Rlt_dec s 0 then s + 1 else s in
  s * 2 * PI.

(** [coord.Cart] of the package github.com/soniakeys/coord: three
    coordinates. *)
Record Cart : Type := { cart_X : R; cart_Y : R; cart_Z : R }.

Definition Se2000 (mjd : R) : Cart * R * R :=
  let d := mjd - 51544.5 in
  let g := 357.529 + 0.98560028 * d in
  let q := 280.459 + 0.98564736 * d in
  let g2 := g + g in
  let sg := sin (g * PI / 180) in
  let cg := cos (g * PI / 180) in
  let sg2 := sin (g2 * PI / 180) in
  let cg2 := cos (g2 * PI / 180) in
  let l := q + 1.915 * sg + 0.020 * sg2 in
  let r := 1.00014 - 0.01671 * cg - 0.00014 * cg2 in
  let e := 23.439 - 0.00000036 * d in
  let soe := sin (e * PI / 180) in
  let coe := cos (e * PI / 180) in
  let sl := sin (l * PI / 180) in
  let cl := cos (l * PI / 180) in
  let rsl := r * sl in
  ({| cart_X := r * cl; cart_Y := rsl * coe; cart_Z := rsl * soe |}, soe, coe).

(* ================================================================== *)
(** ** solarpos.go: rectangular coordinates *)

Definition xyzr (e : V87Planet) (jde : R) : outcome (R * R * R * R) :=
  p <- Position2000 e jde ;;
  let '(l, b, r) := p in
  let s := l + PI in
  let beta := - b in
  let ss := sin s in
  let cs := cos s in
  let sb := sin beta in
  let cb := cos beta in
  Ret (r * cb * cs, r * cb * ss, r * sb, r).

Definition SolarPositionJ2000 (e : V87Planet) (jde : R)
  : outcome (R * R * R * R) :=
  p <- xyzr e jde ;;
  let '(x, y, z, r) := p in
  Ret (x + 0.00000044036 * y - 0.000000190919 * z,
       - 0.000000479966 * x + 0.917482137087 * y - 0.397776982902 * z,
       0.397776982902 * y + 0.917482137087 * z,
       r).

(** A line that the data loop of [parse] reads without a panic and
    without an error. *)
Definition good_data_line (ParseFloat : string -> option R) (line : string)
  : Prop :=
  (131 <= String.length line)%nat /\
  ParseFloat (TrimSpace (substring 79 18 line)) <> None /\
  ParseFloat (substring 98 13 line) <> None /\
  ParseFloat (TrimSpace (substring 111 20 line)) <> None.

(** The term that the data loop reads from a line, when it does. *)
Definition term_of_line (ParseFloat : string -> option R) (line : string)
  : option abc :=
  match ParseFloat (TrimSpace (substring 79 18 line)),
        ParseFloat (substring 98 13 line),
        ParseFloat (TrimSpace (substring 111 20 line)) with
  | Some va, Some vb, Some vc =>
      Some {| abc_a := va; abc_b := vb; abc_c := vc |}
  | _, _, _ => None
  end.

(* ================================================================== *)
(** ** The longitude in binary64

    The evaluator once more, on the binary64 numbers of the kernel
    ([float]) instead of [R], to follow what rounding does to the wrap of
    the longitude.  The cosine of Go's library is a parameter. *)

Module F64.

Definition Pi : float := 0x1.921fb54442d18p+1%float.
Definition J2000 : float := 2451545%float.
Definition JulianCentury : float := 36525%float.

Definition J2000Century (jde : float) : float :=
  ((jde - J2000) / JulianCentury)%float.

(** The loop of [Horner]. *)
Fixpoint Horner_loop (x : float) (c : list float) (fuel : nat) (i : Z)
    (y : float) : outcome float :=
  if (0 <? i)%Z then
    match fuel with
    | O => OutOfFuel
    | S fuel' =>
        let i' := (i - 1)%Z in
        ci <- index c i' ;;
        Horner_loop x c fuel' i' (y * x + ci)%float
    end
  else Ret y.

Definition Horner (x : float) (c : list float) : outcome float :=
  let i := (Z.of_nat (length c) - 1)%Z in
  y <- index c i ;;
  Horner_loop x c (Z.to_nat i) i y.

(** The loop [for r >= y] of Go's [math.Mod]: every pass takes a
    multiple of [y] from [r] that lowers its exponent, so the fuel, above
    the number of binary64 exponents, is never used up. *)
Fixpoint Mod_loop (fuel : nat) (y yfr : float) (yexp : Z) (r : float)
  : float :=
  match fuel with
  | O => r
  | S fuel' =>
      if (y <=? r)%float then
        let '(rfr, rexp) := Z.frexp r in
        let rexp := if (rfr <? yfr)%float then (rexp - 1)%Z else rexp in
        Mod_loop fuel' y yfr yexp (r - Z.ldexp y (rexp - yexp))%float
      else r
  end.

(** [math.Mod(x, y)] of Go's library. *)
Definition math_Mod (x y : float) : float :=
  if ((y =? 0)%float || is_infinity x || is_nan x || is_nan y)%bool then nan
  else
    let y := abs y in
    let '(yfr, yexp) := Z.frexp y in
    let r := if (x <? 0)%float then (- x)%float else x in
    let r := Mod_loop 2200 y yfr yexp r in
    if (x <? 0)%float then (- r)%float else r.

(** [PMod] of astro.go. *)
Definition PMod (x y : float) : float :=
  let r := math_Mod x y in
  if (r <? 0)%float then (r + y)%float else r.

(** [unit.Angle.Mod1], as [Mod1] above. *)
Definition Mod1 (x : float) : float := PMod x (2 * Pi)%float.

Record abc : Type := { abc_a : float; abc_b : float; abc_c : float }.

Record coeff : Type := {
  pow0 : list abc; pow1 : list abc; pow2 : list abc;
  pow3 : list abc; pow4 : list abc; pow5 : list abc
}.

Definition slots (s : coeff) : list (list abc) :=
  [pow0 s; pow1 s; pow2 s; pow3 s; pow4 s; pow5 s].

Definition coeff_zero : coeff :=
  {| pow0 := []; pow1 := []; pow2 := []; pow3 := []; pow4 := []; pow5 := [] |}.

Record V87Planet : Type := { v_l : coeff; v_b : coeff; v_r : coeff }.

Section Evaluator.

(** [math.Cos] of Go's library. *)
Variable math_Cos : float -> float.

Definition term_sum (tau : float) (terms : list abc) : float :=
  fold_left (fun acc t => (acc + abc_a t * math_Cos (abc_b t + abc_c t * tau))%float)
            (rev terms) 0%float.

Definition sum_cf (tau : float) (series : coeff) : list float :=
  map (term_sum tau) (slots series).

Definition sum (tau : float) (series : coeff) : outcome float :=
  Horner tau (firstn (length (slots series)) (sum_cf tau series)).

Definition Position2000 (vt : V87Planet) (jde : float)
  : outcome (float * float * float) :=
  let T := J2000Century jde in
  let tau := (T * 0x1.999999999999ap-4)%float in
  sl <- sum tau (v_l vt) ;;
  sb <- sum tau (v_b vt) ;;
  sr <- sum tau (v_r vt) ;;
  Ret (Mod1 sl, sb, sr).

End Evaluator.


End F64.

(* ================================================================== *)
(** * Properties *)

(** ** Arithmetic of [PMod] *)

Lemma math_Mod_quotient (x y : R) :
  0 < y -> math_Mod x y = y * (x / y - IZR (trunc (x / y))).
Proof.
  intros Hy. unfold math_Mod. field. lra.
Qed.

Lemma trunc_nonneg (q : R) :
  0 <= q -> 0 <= q - IZR (trunc q) < 1.
Proof.
  intros Hq. unfold trunc. destruct (Rle_dec 0 q) as [_|Hn]; [|contradiction].
  destruct (base_Int_part q) as [H1 H2]. lra.
Qed.

Lemma trunc_neg (q : R) :
  q < 0 -> -1 < q - IZR (trunc q) <= 0.
Proof.
  intros Hq. unfold trunc. destruct (Rle_dec 0 q) as [Hp|_]; [lra|].
  destruct (base_Int_part (- q)) as [H1 H2]. rewrite opp_IZR. lra.
Qed.

Lemma PMod_range (x y : R) : 0 < y -> 0 <= PMod x y < y.
Proof.
  intros Hy. unfold PMod. rewrite (math_Mod_quotient x y Hy).
  set (q := x / y). set (t := q - IZR (trunc q)).
  assert (Ht : (0 <= q /\ 0 <= t < 1) \/ (q < 0 /\ -1 < t <= 0)).
  { destruct (Rle_dec 0 q) as [Hq|Hq].
    - left. split; [exact Hq | apply trunc_nonneg; exact Hq].
    - right. assert (q < 0) by lra. split; [lra | apply trunc_neg; lra]. }
  destruct (Rlt_dec (y * t) 0) as [Hneg|Hpos]; destruct Ht as [[_ Ht]|[_ Ht]]; nra.
Qed.

(** [PMod] leaves a value of [[0, y)] as it is. *)
Lemma PMod_small (x y : R) : 0 <= x < y -> PMod x y = x.
Proof.
  intros [H0 Hy]. unfold PMod, math_Mod.
  assert (Hq : 0 <= x / y < 1).
  { split.
    - apply Rmult_le_pos; [lra | left; apply Rinv_0_lt_compat; lra].
    - apply Rmult_lt_reg_r with y; [lra|]. unfold Rdiv.
      rewrite Rmult_assoc, Rinv_l by lra. lra. }
  assert (Ht : trunc (x / y) = 0%Z).
  { unfold trunc. destruct (Rle_dec 0 (x / y)) as [_|Hn]; [|lra].
    symmetry. apply Int_part_spec. simpl. lra. }
  rewrite Ht. simpl. rewrite Rmult_0_r, Rminus_0_r.
  destruct (Rlt_dec x 0); lra.
Qed.

(** For a positive [y], [PMod x y] is the value of [[0, y)] that differs
    from [x] by a whole multiple of [y]. *)
Lemma PMod_residue (x y : R) :
  0 < y ->
  0 <= PMod x y < y /\ exists j : Z, PMod x y = x - IZR j * y.
Proof.
  intros Hy. split; [apply PMod_range; exact Hy|].
  unfold PMod, math_Mod.
  destruct (Rlt_dec (x - y * IZR (trunc (x / y))) 0) as [Hneg|Hpos].
  - exists (trunc (x / y) - 1)%Z. rewrite minus_IZR. lra.
  - exists (trunc (x / y)). lra.
Qed.

Lemma PI_gt_3 : 3 < PI.
Proof. pose proof PI2_3_2. lra. Qed.

Lemma Mod1_range (x : R) : 0 <= Mod1 x < 2 * PI.
Proof. unfold Mod1. apply PMod_range. pose proof PI_gt_3. lra. Qed.

(** ** [Horner] *)

Lemma poly_app (x : R) (c1 c2 : list R) (i : nat) :
  poly x (c1 ++ c2) i = poly x c1 i + poly x c2 (i + length c1).
Proof.
  revert i. induction c1 as [|v c1 IH]; intros i; simpl.
  - rewrite Nat.add_0_r. lra.
  - rewrite IH. replace (S i + length c1)%nat with (i + S (length c1))%nat by lia.
    lra.
Qed.

Lemma poly_shift (x : R) (c : list R) (i : nat) :
  poly x c (S i) = x * poly x c i.
Proof.
  revert i. induction c as [|v c IH]; intros i; cbn [poly]; [lra|].
  rewrite IH. simpl. lra.
Qed.

Lemma poly_zeros (x : R) (m i : nat) : poly x (repeat 0 m) i = 0.
Proof.
  revert i. induction m as [|m IH]; intros i; simpl; [reflexivity|].
  rewrite IH. lra.
Qed.

(** Coefficients that are zero at the high end do not change the value. *)
Lemma poly_trailing_zeros (x : R) (c : list R) (m : nat) :
  poly x (c ++ repeat 0 m) 0 = poly x c 0.
Proof. rewrite poly_app, poly_zeros. lra. Qed.

Lemma index_nth (c : list R) (m : nat) :
  (m < length c)%nat -> index c (Z.of_nat m) = Ret (nth m c 0).
Proof.
  intros Hm. unfold index.
  destruct (Z.ltb_spec (Z.of_nat m) 0) as [Hneg|_]; [lia|].
  rewrite Nat2Z.id.
  destruct (nth_error c m) as [v|] eqn:E.
  - f_equal. symmetry. apply nth_error_nth. exact E.
  - apply nth_error_None in E. lia.
Qed.

Lemma firstn_succ_nth (c : list R) (m : nat) :
  (m < length c)%nat -> firstn (S m) c = firstn m c ++ [nth m c 0].
Proof.
  revert m. induction c as [|v c IH]; intros m Hm; simpl in Hm; [lia|].
  destruct m as [|m]; [reflexivity|].
  cbn [firstn nth app]. f_equal. apply IH. lia.
Qed.

Lemma Horner_loop_poly (x : R) (c : list R) (m fuel : nat) (y : R) :
  (m < length c)%nat -> (m <= fuel)%nat ->
  Horner_loop x c fuel (Z.of_nat m) y = Ret (y * x ^ m + poly x (firstn m c) 0).
Proof.
  revert fuel y. induction m as [|m IH]; intros fuel y Hm Hf.
  - destruct fuel; simpl; f_equal; lra.
  - destruct fuel as [|fuel]; [lia|].
    cbn [Horner_loop].
    destruct (Z.ltb_spec 0 (Z.of_nat (S m))) as [_|Hle]; [|lia].
    replace (Z.of_nat (S m) - 1)%Z with (Z.of_nat m) by lia.
    rewrite index_nth by lia. cbn [bind].
    rewrite IH by lia. f_equal.
    rewrite (firstn_succ_nth c m) by lia.
    rewrite poly_app. simpl poly.
    rewrite length_firstn, Nat.min_l by lia. simpl. lra.
Qed.

Lemma Horner_nonempty (x : R) (c : list R) :
  c <> [] -> Horner x c = Ret (poly x c 0).
Proof.
  intros Hc. unfold Horner.
  assert (Hlen : (0 < length c)%nat) by (destruct c; [congruence | simpl; lia]).
  set (m := (length c - 1)%nat).
  assert (HS : length c = S m) by (unfold m; lia).
  replace (Z.of_nat (length c) - 1)%Z with (Z.of_nat m) by lia.
  rewrite index_nth by lia. cbn [bind]. rewrite Nat2Z.id.
  rewrite Horner_loop_poly by lia. f_equal.
  assert (Hp : poly x c 0 = poly x (firstn m c ++ [nth m c 0]) 0).
  { rewrite <- firstn_succ_nth by lia. rewrite <- HS, firstn_all. reflexivity. }
  rewrite Hp, poly_app. simpl poly.
  rewrite length_firstn, Nat.min_l by lia. simpl. lra.
Qed.

(** C8.  [Horner] on the empty coefficient list panics, it does not
    return zero or any other value; on a list with at least one
    coefficient it returns the value of the polynomial whose constant
    term is [c[0]], [c[0] + c[1]*x + c[2]*x^2 + ...]. *)
Theorem Horner_panics_or_evaluates (x : R) :
  Horner x [] = Panic /\
  forall (c0 : R) (c : list R),
    Horner x (c0 :: c) = Ret (poly x (c0 :: c) 0) /\
    poly x (c0 :: c) 0 = c0 + x * poly x c 0.
Proof.
  split; [reflexivity|].
  intros c0 c. split.
  - apply Horner_nonempty. discriminate.
  - cbn [poly]. rewrite poly_shift. simpl. lra.
Qed.

(** ** The series evaluator *)

Lemma sum_args_slots (tau : R) (series : coeff) :
  sum_args tau series = map (term_sum tau) (slots series).
Proof.
  unfold sum_args, sum_cf.
  rewrite <- (length_map (term_sum tau) (slots series)).
  apply firstn_all.
Qed.

Lemma sum_value (tau : R) (series : coeff) :
  sum tau series = Ret (poly tau (sum_args tau series) 0).
Proof.
  unfold sum. apply Horner_nonempty.
  rewrite sum_args_slots. discriminate.
Qed.

(** C5, as stated, fails: for a radius table with terms in three of its
    powers, [Horner] is handed six coefficients, not three. *)
Lemma sum_args_count_is_not_populated :
  length (sum_args 0 radius_table) <> populated radius_table.
Proof.
  rewrite sum_args_slots, length_map. cbn. discriminate.
Qed.

(** C5, amended.  For every table and every [tau] the closure [sum] hands
    [Horner] exactly six coefficients, one for each slot of the table in
    the order of the powers, whether the slot holds terms or not; a slot
    without terms gives the coefficient 0; and the value returned is that
    of the polynomial in [tau] with these six coefficients. *)
Theorem sum_uses_all_six_slots (tau : R) (series : coeff) :
  length (sum_args tau series) = 6%nat /\
  sum_args tau series = map (term_sum tau) (slots series) /\
  term_sum tau [] = 0 /\
  sum tau series = Ret (poly tau (sum_args tau series) 0).
Proof.
  split; [|split; [|split]].
  - rewrite sum_args_slots, length_map. reflexivity.
  - apply sum_args_slots.
  - reflexivity.
  - apply sum_value.
Qed.

(** The terms of a slot are added from the last one to the first. *)
Lemma term_sum_last (tau : R) (terms : list abc) (t : abc) :
  term_sum tau (t :: terms)
  = term_sum tau terms + abc_a t * cos (abc_b t + abc_c t * tau).
Proof.
  unfold term_sum. simpl rev. rewrite fold_left_app. reflexivity.
Qed.



(** A latitude outside [[0, 2*PI)] comes back as it is. *)
Example latitude_is_not_wrapped :
  Position2000
    {| v_l := coeff_zero;
       v_b := {| pow0 := [term (-1) 0 0]; pow1 := []; pow2 := [];
                 pow3 := []; pow4 := []; pow5 := [] |};
       v_r := coeff_zero |} J2000
  = Ret (Mod1 0, -1, 0).
Proof.
  unfold Position2000. rewrite !sum_value. cbn [bind].
  rewrite !sum_args_slots. unfold slots, coeff_zero, term. cbn [map v_l v_b v_r
    pow0 pow1 pow2 pow3 pow4 pow5 poly]. unfold term_sum.
  cbn [rev app fold_left abc_a abc_b abc_c].
  unfold J2000Century.
  replace (0 + 0 * ((J2000 - J2000) / JulianCentury * (1 / 10))) with 0 by (unfold Rdiv; ring).
  rewrite cos_0. set (tau := (J2000 - J2000) / JulianCentury * (1 / 10)).
  f_equal. repeat apply f_equal2; [f_equal|..]; ring.
Qed.

(** ** The orbit model *)

(** The derived quantities of an orbit depend on the axis, the
    inclination and the node of its elements and on nothing else. *)
Lemma NewOrbit_depends_on (k1 k2 : Elements) :
  Axis k1 = Axis k2 -> Inc k1 = Inc k2 -> Node k1 = Node k2 ->
  n (NewOrbit k1) = n (NewOrbit k2) /\
  _A (NewOrbit k1) = _A (NewOrbit k2) /\
  _B (NewOrbit k1) = _B (NewOrbit k2) /\
  _C (NewOrbit k1) = _C (NewOrbit k2) /\
  a (NewOrbit k1) = a (NewOrbit k2) /\
  b (NewOrbit k1) = b (NewOrbit k2) /\
  c (NewOrbit k1) = c (NewOrbit k2).
Proof.
  intros Ha Hi Hn. unfold NewOrbit. cbn [n _A _B _C a b c].
  rewrite Ha, Hi, Hn. repeat split.
Qed.

(** C9.  Two orbits constructed from equal elements have the same mean
    daily motion [n], the same angles [_A], [_B], [_C] and the same
    magnitudes [a], [b], [c]. *)
Theorem NewOrbit_deterministic (k1 k2 : Elements) :
  k1 = k2 ->
  n (NewOrbit k1) = n (NewOrbit k2) /\
  _A (NewOrbit k1) = _A (NewOrbit k2) /\
  _B (NewOrbit k1) = _B (NewOrbit k2) /\
  _C (NewOrbit k1) = _C (NewOrbit k2) /\
  a (NewOrbit k1) = a (NewOrbit k2) /\
  b (NewOrbit k1) = b (NewOrbit k2) /\
  c (NewOrbit k1) = c (NewOrbit k2).
Proof.
  intros Hk. apply NewOrbit_depends_on; rewrite Hk; reflexivity.
Qed.

Lemma NewOrbit_deterministic_witness :
  let k2 := {| Axis := 1; Ecc := 0; Inc := 0; ArgP := 0; Node := 0; TimeP := 0 |} in
  circular = k2 /\
  (n (NewOrbit circular) = n (NewOrbit k2) /\
   _A (NewOrbit circular) = _A (NewOrbit k2) /\
   _B (NewOrbit circular) = _B (NewOrbit k2) /\
   _C (NewOrbit circular) = _C (NewOrbit k2) /\
   a (NewOrbit circular) = a (NewOrbit k2) /\
   b (NewOrbit circular) = b (NewOrbit k2) /\
   c (NewOrbit circular) = c (NewOrbit k2)).
Proof.
  intros k2. split; [reflexivity|].
  apply (NewOrbit_deterministic circular k2). reflexivity.
Defined.

(** ** The loader: the planet index *)

(** C10.  With a planet index below 0 or not below 8, [LoadPlanetPath]
    returns no planet and the error "Invalid planet."; the world is
    returned as it was, no file has been read.  No fuel is needed. *)
Theorem LoadPlanetPath_invalid_planet (ParseFloat : string -> option R)
    (fuel : nat) (w : world) (ibody : Z) (path : string) :
  (ibody < 0 \/ 8 <= ibody)%Z ->
  LoadPlanetPath ParseFloat fuel w ibody path
  = Ret (w, (None, Some (errors_New "Invalid planet."))).
Proof.
  intros Hb. unfold LoadPlanetPath, nPlanets.
  destruct (Z.ltb_spec ibody 0) as [Hlt|Hge]; [reflexivity|].
  destruct (Z.geb_spec ibody 8) as [H8|H8]; [reflexivity|]. lia.
Qed.

Lemma LoadPlanetPath_invalid_planet_witness :
  (8 < 0 \/ 8 <= 8)%Z /\
  LoadPlanetPath (fun _ => None) 0 (world_of header_zero) 8 "dir"
  = Ret (world_of header_zero, (None, Some (errors_New "Invalid planet."))).
Proof.
  split; [right; lia|].
  apply (LoadPlanetPath_invalid_planet (fun _ => None) 0 (world_of header_zero) 8 "dir").
  right. lia.
Defined.

(** With a planet of the list the file is asked for before anything
    else: the name is on record even when the file does not exist. *)
Example LoadPlanetPath_valid_planet_reads :
  exists w', LoadPlanetPath (fun _ => None) 0 (world_of header_zero) Earth "nowhere"
             = Ret (w', (None, Some (errors_New "open: no such file or directory")))
             /\ reads w' = ["nowhere/VSOP87B.ear"%string].
Proof. eexists. split; reflexivity. Qed.

(** ** The Kepler solver: the bisection *)

Lemma kepler3_loop_succ (e M : R) (iters : nat) (s : R * R) :
  kepler3_loop e M (S iters) s = kepler3_step e M (kepler3_loop e M iters s).
Proof.
  revert s. induction iters as [|iters IH]; intros s; [reflexivity|].
  change (kepler3_loop e M (S (S iters)) s)
    with (kepler3_loop e M (S iters) (kepler3_step e M s)).
  rewrite IH. reflexivity.
Qed.

(** The step after [iters] passes. *)
Lemma kepler3_loop_step (e M : R) (iters : nat) (E0 d : R) :
  snd (kepler3_loop e M iters (E0, d)) = d / 2 ^ iters.
Proof.
  induction iters as [|iters IH].
  - simpl. field.
  - rewrite kepler3_loop_succ.
    destruct (kepler3_loop e M iters (E0, d)) as [E' d'] eqn:Hl.
    simpl in IH. subst d'. cbn [kepler3_step snd]. simpl pow. field.
    apply pow_nonzero. lra.
Qed.

(** The estimate never leaves the interval that the steps can reach. *)
Lemma kepler3_loop_bounds (e M : R) (iters : nat) (E0 d : R) :
  0 < d ->
  let E' := fst (kepler3_loop e M iters (E0, d)) in
  let d' := d / 2 ^ iters in
  E0 - 2 * d + 2 * d' <= E' <= E0 + 2 * d - 2 * d'.
Proof.
  intros Hd. induction iters as [|iters IH].
  - simpl. lra.
  - rewrite kepler3_loop_succ.
    pose proof (kepler3_loop_step e M iters E0 d) as Hs.
    destruct (kepler3_loop e M iters (E0, d)) as [E' d'] eqn:Hl.
    cbn [fst snd] in IH, Hs. subst d'. cbn [kepler3_step fst].
    assert (Hp : 0 < 2 ^ iters) by (apply pow_lt; lra).
    assert (Hq : d / 2 ^ S iters = d / 2 ^ iters * (1/2))
      by (simpl pow; field; lra).
    rewrite Hq.
    assert (Hq' : 0 < d / 2 ^ iters) by (apply Rdiv_lt_0_compat; lra).
    destruct (Rlt_dec _ 0); lra.
Qed.

Lemma kepler3_positive (e Mr : R) :
  0 < fst (kepler3_loop e Mr 53 (PI * (1/2), PI * (1/4))).
Proof.
  pose proof PI_gt_3 as Hpi.
  pose proof (kepler3_loop_bounds e Mr 53 (PI * (1/2)) (PI * (1/4))) as Hb.
  cbv zeta in Hb.
  assert (Hp : 0 < PI * (1/4) / 2 ^ 53).
  { apply Rdiv_lt_0_compat; [lra | apply pow_lt; lra]. }
  lra.
Qed.

(** The value of [kepler3], by the side of [PI] that the reduced mean
    anomaly falls on. *)
Lemma kepler3_unfold (e M : R) :
  kepler3 e M =
  if Rlt_dec PI (PMod M (2 * PI))
  then - fst (kepler3_loop e (2 * PI - PMod M (2 * PI)) 53 (PI * (1/2), PI * (1/4)))
  else fst (kepler3_loop e (PMod M (2 * PI)) 53 (PI * (1/2), PI * (1/4))).
Proof.
  unfold kepler3.
  destruct (Rlt_dec PI (PMod M (2 * PI))) as [Hgt|Hle].
  - destruct (kepler3_loop e _ 53 _) as [E' d']. reflexivity.
  - destruct (kepler3_loop e _ 53 _) as [E' d']. reflexivity.
Qed.

(** C7.  For every [e] and [M], [kepler3] returns, and its value is built
    this way: the mean anomaly, wrapped into one revolution, is kept when
    it is at most [PI] and replaced by [2*PI] minus itself, with the sign
    flip recorded, when it is above, so that the target [Mr] lies in
    [[0, PI]] and is [M] less a whole number of revolutions when no flip
    is recorded and [-M] plus a whole number of revolutions when one is;
    53 steps follow, from [PI/2] with the first step [PI/4], each one up
    when the implied mean anomaly is below the target and down when it is
    above, the step halved every time; the result is the last estimate,
    negated when the flip was recorded. *)
Theorem kepler3_is_bisection (e M : R) :
  exists (flip : bool) (Mr : R) (E : nat -> R) (j : Z),
    0 <= Mr <= PI /\
    (if flip
     then PI < PMod M (2 * PI) /\ Mr = 2 * PI - PMod M (2 * PI) /\
          Mr = - M + IZR j * (2 * PI)
     else PMod M (2 * PI) <= PI /\ Mr = PMod M (2 * PI) /\
          Mr = M - IZR j * (2 * PI)) /\
    bisection_run e Mr E 53 /\
    kepler3 e M = (if flip then - E 53%nat else E 53%nat).
Proof.
  pose proof PI_gt_3 as Hpi.
  assert (H2pi : 0 < 2 * PI) by lra.
  destruct (PMod_residue M (2 * PI) H2pi) as [Hr [j Hj]].
  assert (Hrun : forall Mr,
             bisection_run e Mr
               (fun i => fst (kepler3_loop e Mr i (PI * (1/2), PI * (1/4)))) 53).
  { intros Mr. split; [simpl; lra|].
    intros i _. cbv zeta.
    rewrite kepler3_loop_succ.
    pose proof (kepler3_loop_step e Mr i (PI * (1/2)) (PI * (1/4))) as Hs.
    destruct (kepler3_loop e Mr i _) as [E' d'].
    cbn [fst snd] in Hs |- *. subst d'. unfold kepler3_step, implied. cbn [fst].
    replace (PI * (1/4) / 2 ^ i) with (PI / 4 / 2 ^ i) by (unfold Rdiv; ring).
    destruct (Rlt_dec (Mr - (E' - e * sin E')) 0) as [Hlt|Hge].
    - split; [right; reflexivity|]. split; [intros; lra | intros; reflexivity].
    - split; [left; reflexivity|]. split; [intros; reflexivity | intros; lra]. }
  destruct (Rlt_dec PI (PMod M (2 * PI))) as [Hgt|Hle] eqn:Hdec.
  - exists true, (2 * PI - PMod M (2 * PI)),
      (fun i => fst (kepler3_loop e (2 * PI - PMod M (2 * PI)) i
                       (PI * (1/2), PI * (1/4)))), (j + 1)%Z.
    split; [lra|].
    split; [split; [exact Hgt | split; [reflexivity | rewrite plus_IZR; lra]]|].
    split; [apply Hrun|].
    rewrite kepler3_unfold, Hdec. reflexivity.
  - exists false, (PMod M (2 * PI)),
      (fun i => fst (kepler3_loop e (PMod M (2 * PI)) i
                       (PI * (1/2), PI * (1/4)))), j.
    split; [lra|].
    split; [split; [lra | split; [reflexivity | exact Hj]]|].
    split; [apply Hrun|].
    rewrite kepler3_unfold, Hdec. reflexivity.
Qed.

(** ** The Kepler solver: the choice between the two methods *)

Lemma tolerance_positive : 0 < powerRZ 10 (- 15).
Proof. apply powerRZ_lt. lra. Qed.

Lemma kepler2b_f_circular (M : R) : kepler2b_f 0 M M = M.
Proof.
  unfold kepler2b_f.
  replace ((M + 0 * sin M - M) / (1 - 0 * cos M)) with 0 by (field; lra).
  destruct (Rlt_dec (1/2) 0) as [H|_]; [lra|].
  destruct (Rlt_dec 0 (-(1/2))) as [H|_]; [lra|]. lra.
Qed.

Lemma iterate_loop_first (better : R -> R) (d start : R) (iters : nat) :
  Rabs (better start - start) < d ->
  iterate_loop better d start (S iters) = (better start, None).
Proof.
  intros H. cbn [iterate_loop].
  destruct (Rlt_dec (Rabs (better start - start)) d) as [_|Hn];
    [reflexivity | contradiction].
Qed.

(** With eccentricity 0 the iteration meets the tolerance at its first
    pass and returns [M] with a nil error. *)
Lemma kepler2b_circular (M : R) : kepler2b 0 M 15 = (M, None).
Proof.
  unfold kepler2b, iterateDecimalPlaces.
  change (Z.to_nat 15) with (S 14).
  rewrite iterate_loop_first; rewrite kepler2b_f_circular; [reflexivity|].
  replace (M - M) with 0 by lra. rewrite Rabs_R0.
  exact tolerance_positive.
Qed.

(** When the iteration gives up, the value that comes with the error is 0. *)
Lemma iterate_loop_error (better : R -> R) (d start : R) (iters : nat) :
  match iterate_loop better d start iters with
  | (v, Some _) => v = 0
  | (_, None) => True
  end.
Proof.
  revert start. induction iters as [|iters IH]; intros start; simpl.
  - reflexivity.
  - destruct (Rlt_dec _ d); [exact I | apply IH].
Qed.

(** What [kepler] returns, by the outcome of the iteration: its value 0
    when it gave up, the bisection when it converged. *)
Lemma kepler_by_outcome (e M : R) :
  match kepler2b e M 15 with
  | (_, Some _) => kepler e M = 0
  | (_, None) => kepler e M = kepler3 e M
  end.
Proof.
  unfold kepler.
  pose proof (iterate_loop_error (kepler2b_f e M) (powerRZ 10 (- 15)) M 15) as H.
  unfold kepler2b, iterateDecimalPlaces. change (Z.to_nat 15) with 15%nat.
  destruct (iterate_loop _ _ _ _) as [v [err|]]; [exact H | reflexivity].
Qed.

Lemma PMod_5 : PMod 5 (2 * PI) = 5.
Proof. apply PMod_small. pose proof PI_gt_3. lra. Qed.

Lemma kepler3_circular_5 : kepler3 0 5 < 0.
Proof.
  rewrite kepler3_unfold, PMod_5.
  destruct (Rlt_dec PI 5) as [_|H]; [|pose proof PI_4; lra].
  pose proof (kepler3_positive 0 (2 * PI - 5)). lra.
Qed.

(** C1, on the code.  At [e = 0], [M = 5] the iteration converges to 5,
    yet [kepler] returns the value of the bisection, which is negative;
    and whenever the iteration gives up, [kepler] returns 0 and the
    bisection is not consulted. *)
Theorem kepler_swaps_the_branches :
  kepler2b 0 5 15 = (5, None) /\
  kepler 0 5 = kepler3 0 5 /\
  kepler 0 5 <> 5 /\
  forall e M, match kepler2b e M 15 with
              | (_, Some _) => kepler e M = 0
              | (_, None) => kepler e M = kepler3 e M
              end.
Proof.
  assert (H5 : kepler 0 5 = kepler3 0 5).
  { pose proof (kepler_by_outcome 0 5) as H.
    rewrite kepler2b_circular in H. exact H. }
  split; [apply kepler2b_circular|]. split; [exact H5|].
  split; [|apply kepler_by_outcome].
  rewrite H5. pose proof kepler3_circular_5. lra.
Qed.

Lemma PMod_0 : PMod 0 (2 * PI) = 0.
Proof. apply PMod_small. pose proof PI_gt_3. lra. Qed.

(** C4, on the code.  At [e = 0], [M = 5] the value of [kepler] is
    negative, further than 1e-12 from [M]; at [e = 0], [M = 0] it is
    positive, not 0. *)
Theorem kepler_circular_is_not_identity :
  kepler 0 5 < 0 /\
  Rabs (kepler 0 5 - 5) > 1 / 10 ^ 12 /\
  0 < kepler 0 0.
Proof.
  assert (H5 : kepler 0 5 < 0).
  { pose proof (kepler_by_outcome 0 5) as H.
    rewrite kepler2b_circular in H. rewrite H. exact kepler3_circular_5. }
  split; [exact H5|]. split.
  - rewrite Rabs_left by lra.
    assert (Hp : 1 < 10 ^ 12) by (apply Rlt_pow_R1; [lra | lia]).
    assert (Hi : / 10 ^ 12 < / 1) by (apply Rinv_lt_contravar; lra).
    rewrite Rinv_1 in Hi. lra.
  - pose proof (kepler_by_outcome 0 0) as H.
    rewrite kepler2b_circular in H. rewrite H.
    rewrite kepler3_unfold, PMod_0.
    destruct (Rlt_dec PI 0) as [Hc|_]; [pose proof PI_gt_3; lra|].
    apply kepler3_positive.
Qed.

(** ** The loader: blocks and their term counts *)

Section LoaderFacts.

Variable ParseFloat : string -> option R.

(** A header that passes every test of [parse] and declares no term:
    the pass ends in [continue] with [n] and the table as they were. *)
Lemma parse_zero_count_continue (fuel : nat) (c : coeff) (ic : ascii)
    (ibody : Z) (lines : list string) (n : Z) (au : bool)
    (line name cnt : string) (ch59 : ascii) :
  (n <? Z.of_nat (length lines))%Z = true ->
  index lines n = Ret line ->
  Nat.ltb (String.length line) 132 = false ->
  byte_at line 41 = Ret ic ->
  byte_at line 17 = Ret fileVersion ->
  slice line 22 29 = Ret name ->
  index b7 ibody = Ret name ->
  byte_at line 59 = Ret ch59 ->
  slice line 60 67 = Ret cnt ->
  Atoi (TrimSpace cnt) = Some 0%Z ->
  parse ParseFloat (S fuel) c ic ibody lines n au
  = parse ParseFloat fuel c ic ibody lines n au.
Proof.
  intros Hn Hi Hlen H41 H17 Hbo Hname H59 Hcnt Hat.
  cbn [parse]. rewrite Hn, Hi. cbn [bind]. rewrite Hlen, H41. cbn [bind].
  rewrite Ascii.eqb_refl. cbn [negb]. rewrite H17. cbn [bind].
  rewrite Ascii.eqb_refl. cbn [negb]. rewrite Hbo, Hname. cbn [bind].
  rewrite String.eqb_refl. cbn [negb]. rewrite H59, Hcnt. cbn [bind].
  rewrite Hat. reflexivity.
Qed.

(** Such a header is never left: whatever the fuel, [parse] does not
    return. *)
Lemma parse_zero_count_loops (fuel : nat) (c : coeff) (ic : ascii)
    (ibody : Z) (lines : list string) (n : Z) (au : bool)
    (line name cnt : string) (ch59 : ascii) :
  (n <? Z.of_nat (length lines))%Z = true ->
  index lines n = Ret line ->
  Nat.ltb (String.length line) 132 = false ->
  byte_at line 41 = Ret ic ->
  byte_at line 17 = Ret fileVersion ->
  slice line 22 29 = Ret name ->
  index b7 ibody = Ret name ->
  byte_at line 59 = Ret ch59 ->
  slice line 60 67 = Ret cnt ->
  Atoi (TrimSpace cnt) = Some 0%Z ->
  parse ParseFloat fuel c ic ibody lines n au = OutOfFuel.
Proof.
  intros Hn Hi Hlen H41 H17 Hbo Hname H59 Hcnt Hat.
  induction fuel as [|fuel IH]; [reflexivity|].
  rewrite (parse_zero_count_continue fuel c ic ibody lines n au
             line name cnt ch59); assumption.
Qed.

End LoaderFacts.

(** The loader returns when no block is empty: here with the one term in
    the slot of power 1, after two passes of the loop for the longitude
    and one for each of the latitude and the radius. *)
Example LoadPlanetPath_one_block :
  exists w',
    LoadPlanetPath (fun _ => Some 1) 2 (world_of one_block_file) Earth "dir"
    = Ret (w', (Some {| v_l := {| pow0 := []; pow1 := [term 1 1 1]; pow2 := [];
                                  pow3 := []; pow4 := []; pow5 := [] |};
                        v_b := coeff_zero; v_r := coeff_zero |}, None)).
Proof. eexists. reflexivity. Qed.

(** C2, on the code.  On the file whose first block declares zero terms,
    [parse] stays on that header for ever: whatever the fuel, neither
    [parse] nor [LoadPlanetPath] returns, and the block that follows is
    never reached. *)
Theorem zero_count_block_never_returns (ParseFloat : string -> option R)
    (fuel : nat) :
  Split_nl zero_count_file
  = [header_zero; header "EARTH  " "1" "1" "      1"; data_line; ""%string] /\
  parse ParseFloat fuel coeff_zero "1" Earth (Split_nl zero_count_file) 0 false
  = OutOfFuel /\
  LoadPlanetPath ParseFloat fuel (world_of zero_count_file) Earth "dir"
  = OutOfFuel.
Proof.
  assert (Hs : Split_nl zero_count_file
               = [header_zero; header "EARTH  " "1" "1" "      1";
                  data_line; ""%string]) by (vm_compute; reflexivity).
  assert (Hp : parse ParseFloat fuel coeff_zero "1" Earth
                 (Split_nl zero_count_file) 0 false = OutOfFuel).
  { rewrite Hs.
    apply (parse_zero_count_loops ParseFloat fuel coeff_zero "1" Earth _ 0 false
             header_zero "EARTH  " "      0" "0"); vm_compute; reflexivity. }
  split; [exact Hs|]. split; [exact Hp|].
  unfold LoadPlanetPath.
  change ((Earth <? 0)%Z || (Earth >=? nPlanets)%Z)%bool with false.
  cbv iota. change (index ext Earth) with (Ret "ear"%string). cbn [bind].
  change (ReadFile (world_of zero_count_file) ("dir" ++ "/VSOP87B." ++ "ear"))
    with ({| files := files (world_of zero_count_file);
             reads := ["dir/VSOP87B.ear"%string] |},
          @inl string error zero_count_file).
  cbv iota beta. rewrite Hp. reflexivity.
Qed.

(** C3, on the code.  A header that declares one term and is the last
    line of the input, with or without a newline after it, makes the loader
    panic; a header that declares two terms and is the only line gives the
    error "Unexpected end of file.", which names no line. *)
Theorem short_block_panics_or_has_no_line (ParseFloat : string -> option R)
    (fuel : nat) :
  parse ParseFloat (S fuel) coeff_zero "1" Earth [header_one] 0 false = Panic /\
  LoadPlanetPath ParseFloat (S fuel)
    (world_of (header_one ++ String newline "")) Earth "dir" = Panic /\
  parse ParseFloat (S fuel) coeff_zero "1" Earth [header_two] 0 false
  = Ret (coeff_zero, (0%Z, Some (errors_New "Unexpected end of file."))) /\
  ~ carries_line (errors_New "Unexpected end of file.").
Proof.
  split; [vm_compute; reflexivity|].
  split; [vm_compute; reflexivity|].
  split; [vm_compute; reflexivity|].
  intros [line [c H]]. discriminate H.
Qed.

(* ================================================================== *)
(** * Further properties *)

(** ** Integer floor division *)

(** X1.  [floorDiv] is the floor of the quotient, [Z.div], whenever the two
    signs agree or the division leaves a remainder. *)
Theorem floorDiv_is_floor (x y : Z) :
  (- 2 ^ 63 < x < 2 ^ 63)%Z -> (- 2 ^ 63 <= y < 2 ^ 63)%Z -> y <> 0%Z ->
  ((x <? 0)%Z = (y <? 0)%Z \/ (x mod y)%Z <> 0%Z) ->
  floorDiv x y = Ret (x / y)%Z.
Proof.
  intros _ _ Hy Hc. unfold floorDiv.
  destruct (Z.eqb_spec y 0) as [H0|_]; [contradiction|].
  pose proof (Z.quot_rem' x y) as Hqr.
  assert (Hr0 : (x <? 0)%Z <> (y <? 0)%Z -> Z.rem x y <> 0%Z).
  { intros Hs Hr. destruct Hc as [Hc|Hc]; [contradiction|].
    apply Hc. rewrite Hqr, Hr, Z.add_0_r, Z.mul_comm.
    apply Z.mod_mul. exact Hy. }
  destruct (Z.ltb_spec x 0) as [Hx|Hx]; destruct (Z.ltb_spec y 0) as [Hy'|Hy'];
    cbn [Bool.eqb]; f_equal.
  - pose proof (Z.rem_bound_neg_neg x y Hy' ltac:(lia)) as Hb.
    apply (Z.div_unique x y _ (Z.rem x y)); [right; lia | exact Hqr].
  - pose proof (Z.rem_bound_pos_neg x y ltac:(lia) ltac:(lia)) as Hb.
    assert (Hn : Z.rem x y <> 0%Z) by (apply Hr0; discriminate).
    apply (Z.div_unique x y _ (Z.rem x y + y)); [left; lia | lia].
  - pose proof (Z.rem_bound_neg_pos x y Hy' Hx) as Hb.
    assert (Hn : Z.rem x y <> 0%Z) by (apply Hr0; discriminate).
    apply (Z.div_unique x y _ (Z.rem x y + y)); [right; lia | lia].
  - apply Z.quot_div_nonneg; lia.
Qed.

Lemma floorDiv_is_floor_witness :
  (- 2 ^ 63 < -7 < 2 ^ 63)%Z /\ (- 2 ^ 63 <= 2 < 2 ^ 63)%Z /\ 2%Z <> 0%Z /\
  ((-7 <? 0)%Z = (2 <? 0)%Z \/ (-7 mod 2)%Z <> 0%Z) /\
  floorDiv (-7) 2 = Ret (-7 / 2)%Z.
Proof.
  assert (H1 : (- 2 ^ 63 < -7 < 2 ^ 63)%Z) by lia.
  assert (H2 : (- 2 ^ 63 <= 2 < 2 ^ 63)%Z) by lia.
  assert (H3 : 2%Z <> 0%Z) by lia.
  assert (H4 : (-7 <? 0)%Z = (2 <? 0)%Z \/ (-7 mod 2)%Z <> 0%Z)
    by (right; discriminate).
  split; [exact H1|]. split; [exact H2|]. split; [exact H3|].
  split; [exact H4|].
  exact (floorDiv_is_floor (-7) 2 H1 H2 H3 H4).
Defined.

(** X2.  When the signs differ and the division is exact, [floorDiv] is one
    below the quotient: [floorDiv(-4, 2)] is -3 and [floorDiv(0, -3)] is -1. *)
Theorem floorDiv_exact_mixed_signs (x y : Z) :
  (- 2 ^ 63 < x < 2 ^ 63)%Z -> (- 2 ^ 63 <= y < 2 ^ 63)%Z -> y <> 0%Z ->
  (x <? 0)%Z <> (y <? 0)%Z -> (x mod y)%Z = 0%Z ->
  floorDiv x y = Ret (x / y - 1)%Z.
Proof.
  intros _ _ Hy Hs Hm. unfold floorDiv.
  destruct (Z.eqb_spec y 0) as [H0|_]; [contradiction|].
  destruct (Bool.eqb (x <? 0)%Z (y <? 0)%Z) eqn:He.
  - apply Bool.eqb_prop in He. contradiction.
  - do 2 f_equal.
    apply Z.mod_divide in Hm; [|exact Hy]. destruct Hm as [q Hq]. subst x.
    rewrite Z.quot_mul by exact Hy. rewrite Z.div_mul by exact Hy. reflexivity.
Qed.

Lemma floorDiv_exact_mixed_signs_witness :
  (- 2 ^ 63 < -4 < 2 ^ 63)%Z /\ (- 2 ^ 63 <= 2 < 2 ^ 63)%Z /\ 2%Z <> 0%Z /\
  (-4 <? 0)%Z <> (2 <? 0)%Z /\ (-4 mod 2)%Z = 0%Z /\
  floorDiv (-4) 2 = Ret (-4 / 2 - 1)%Z.
Proof.
  assert (H1 : (- 2 ^ 63 < -4 < 2 ^ 63)%Z) by lia.
  assert (H2 : (- 2 ^ 63 <= 2 < 2 ^ 63)%Z) by lia.
  assert (H3 : 2%Z <> 0%Z) by lia.
  assert (H4 : (-4 <? 0)%Z <> (2 <? 0)%Z) by discriminate.
  assert (H5 : (-4 mod 2)%Z = 0%Z) by reflexivity.
  split; [exact H1|]. split; [exact H2|]. split; [exact H3|].
  split; [exact H4|]. split; [exact H5|].
  exact (floorDiv_exact_mixed_signs (-4) 2 H1 H2 H3 H4 H5).
Defined.

(** ** Julian days *)

Lemma floorDiv_nonneg (x y : Z) :
  (0 <= x)%Z -> (0 < y)%Z -> floorDiv x y = Ret (x / y)%Z.
Proof.
  intros Hx Hy. unfold floorDiv.
  destruct (Z.eqb_spec y 0) as [H0|_]; [lia|].
  destruct (Z.ltb_spec x 0) as [Hx'|_]; [lia|].
  destruct (Z.ltb_spec y 0) as [Hy'|_]; [lia|].
  cbn [Bool.eqb]. f_equal. apply Z.quot_div_nonneg; lia.
Qed.

Lemma floorDiv64_nonneg (x y : Z) :
  (0 <= x)%Z -> (0 < y)%Z -> floorDiv64 x y = Ret (x / y)%Z.
Proof. exact (floorDiv_nonneg x y). Qed.

(** The twelve months, one by one. *)
Lemma month_cases (m : Z) :
  (1 <= m <= 12)%Z ->
  m = 1%Z \/ m = 2%Z \/ m = 3%Z \/ m = 4%Z \/ m = 5%Z \/ m = 6%Z \/
  m = 7%Z \/ m = 8%Z \/ m = 9%Z \/ m = 10%Z \/ m = 11%Z \/ m = 12%Z.
Proof. lia. Qed.

Ltac each_month H :=
  apply month_cases in H;
  repeat (destruct H as [H|H]; [subst|]); [..|subst].

(** Evaluate the quotients of [FFCalendarGregorianToJD] that depend on
    the month only. *)
Ltac quot_constants :=
  repeat match goal with
         | |- context [Z.quot (?m - 14) 12] =>
             let v := eval vm_compute in (Z.quot (m - 14) 12) in
             change (Z.quot (m - 14) 12) with v
         end.

(** The value of [MeeusCalendarGregorianToJD] from the year 1 on, with
    the floors written as [Z.div]. *)
Lemma Meeus_eval (y m : Z) (d : R) :
  (1 <= y)%Z -> (1 <= m <= 12)%Z ->
  let y' := if (m <=? 2)%Z then (y - 1)%Z else y in
  let m' := if (m <=? 2)%Z then (m + 12)%Z else m in
  MeeusCalendarGregorianToJD y m d
  = Ret (IZR (36525 * (y' + 4716) / 100)
         + IZR (306 * (m' + 1) / 10 + (2 - y' / 100 + y' / 100 / 4))
         + d - 1524.5).
Proof.
  intros Hy Hm. cbv zeta. unfold MeeusCalendarGregorianToJD.
  assert (Hadj : (if ((m =? 1) || (m =? 2))%Z%bool
                  then ((y - 1)%Z, (m + 12)%Z) else (y, m))
                 = (if (m <=? 2)%Z then (y - 1)%Z else y,
                    if (m <=? 2)%Z then (m + 12)%Z else m)).
  { destruct (Z.eqb_spec m 1); destruct (Z.eqb_spec m 2);
      destruct (Z.leb_spec m 2); cbn [orb]; try reflexivity; lia. }
  rewrite Hadj.
  set (y' := if (m <=? 2)%Z then (y - 1)%Z else y).
  set (m' := if (m <=? 2)%Z then (m + 12)%Z else m).
  assert (Hy' : (0 <= y')%Z) by (unfold y'; destruct (m <=? 2)%Z; lia).
  assert (Hm' : (3 <= m' <= 14)%Z)
    by (unfold m'; destruct (Z.leb_spec m 2); lia).
  rewrite (floorDiv_nonneg y' 100) by lia. cbn [bind].
  rewrite (floorDiv_nonneg (y' / 100) 4)
    by (try apply Z.div_pos; lia). cbn [bind].
  rewrite floorDiv64_nonneg by lia. cbn [bind].
  rewrite floorDiv_nonneg by lia. cbn [bind].
  reflexivity.
Qed.

Ltac div_lia := Z.to_euclidean_division_equations; lia.

(** The value of [FFCalendarGregorianToJD] from the year 1 on, with the
    year and the month shifted as Meeus shifts them and the quotients
    written as [Z.div]. *)
Lemma FF_eval (y m : Z) (d : R) :
  (1 <= y)%Z -> (1 <= m <= 12)%Z ->
  let y' := if (m <=? 2)%Z then (y - 1)%Z else y in
  let m' := if (m <=? 2)%Z then (m + 12)%Z else m in
  FFCalendarGregorianToJD y m d
  = d - 0.5
    + IZR (- 32075 + 1461 * (y' + 4800) / 4 + 367 * (m' - 2) / 12
           - 3 * ((y' + 4900) / 100) / 4).
Proof.
  intros Hy Hm. cbv zeta. unfold FFCalendarGregorianToJD. do 2 f_equal.
  each_month Hm; cbn [Z.leb Z.compare Pos.compare Pos.compare_cont];
    quot_constants;
    repeat match goal with
           | |- context [Z.quot ?u ?v] =>
               rewrite (Z.quot_div_nonneg u v) by div_lia
           end;
    repeat match goal with
           | |- context [(?u + 4800 + ?s)%Z] =>
               replace (u + 4800 + s)%Z with (u + s + 4800)%Z by lia;
               replace (u + 4900 + s)%Z with (u + s + 4900)%Z by lia
           end;
    rewrite ?Z.add_0_r; reflexivity.
Qed.

(** The two integer formulas, side by side. *)
Lemma jd_identity (y' m' : Z) :
  (0 <= y')%Z -> (3 <= m' <= 14)%Z ->
  (36525 * (y' + 4716) / 100
   + (306 * (m' + 1) / 10 + (2 - y' / 100 + y' / 100 / 4))
   = - 32075 + 1461 * (y' + 4800) / 4 + 367 * (m' - 2) / 12
     - 3 * ((y' + 4900) / 100) / 4 + 1524)%Z.
Proof.
  intros Hy Hm.
  assert (H1 : (36525 * (y' + 4716) / 100
                = 365 * (y' + 4716) + (y' + 4716) / 4)%Z) by div_lia.
  assert (H2 : (1461 * (y' + 4800) / 4
                = 365 * (y' + 4800) + (y' + 4716) / 4 + 21)%Z) by div_lia.
  assert (H3 : ((y' + 4900) / 100 = y' / 100 + 49)%Z) by div_lia.
  assert (H4 : (3 * (y' / 100 + 49) / 4
                = y' / 100 - y' / 100 / 4 + 36)%Z).
  { generalize (y' / 100)%Z. intros c0. div_lia. }
  rewrite H1, H2, H3, H4.
  assert (Hm' : (306 * (m' + 1) / 10 = 92 + 367 * (m' - 2) / 12)%Z).
  { assert (Hc : m' = 3%Z \/ m' = 4%Z \/ m' = 5%Z \/ m' = 6%Z \/ m' = 7%Z \/
                 m' = 8%Z \/ m' = 9%Z \/ m' = 10%Z \/ m' = 11%Z \/
                 m' = 12%Z \/ m' = 13%Z \/ m' = 14%Z) by lia.
    repeat (destruct Hc as [Hc|Hc]; [subst; reflexivity|]).
    subst; reflexivity. }
  rewrite Hm'. lia.
Qed.

(** X3.  From the year 1 on and for the months 1 to 12, the formula of Meeus
    and that of Fliegel and van Flandern give the same Julian day. *)
Theorem Meeus_agrees_with_FF (y m : Z) (d : R) :
  (1 <= y <= 1000000000000)%Z -> (1 <= m <= 12)%Z ->
  MeeusCalendarGregorianToJD y m d = Ret (FFCalendarGregorianToJD y m d).
Proof.
  intros [Hy _] Hm. rewrite Meeus_eval, FF_eval by lia. cbv zeta. f_equal.
  set (y' := if (m <=? 2)%Z then (y - 1)%Z else y).
  set (m' := if (m <=? 2)%Z then (m + 12)%Z else m).
  assert (Hy' : (0 <= y')%Z) by (unfold y'; destruct (m <=? 2)%Z; lia).
  assert (Hm' : (3 <= m' <= 14)%Z)
    by (unfold m'; destruct (Z.leb_spec m 2); lia).
  pose proof (jd_identity y' m' Hy' Hm') as Hz.
  match goal with
  | |- IZR ?t1 + IZR ?t2 + d - 1524.5 = d - 0.5 + IZR ?t3 =>
      assert (Hr : IZR t1 + IZR t2 = IZR t3 + IZR 1524)
        by (rewrite <- !plus_IZR; f_equal; exact Hz)
  end.
  lra.
Qed.

Lemma Meeus_agrees_with_FF_witness :
  (1 <= 1957 <= 1000000000000)%Z /\ (1 <= 10 <= 12)%Z /\
  MeeusCalendarGregorianToJD 1957 10 4.81
  = Ret (FFCalendarGregorianToJD 1957 10 4.81).
Proof.
  assert (H1 : (1 <= 1957 <= 1000000000000)%Z) by lia.
  assert (H2 : (1 <= 10 <= 12)%Z) by lia.
  split; [exact H1|]. split; [exact H2|].
  exact (Meeus_agrees_with_FF 1957 10 4.81 H1 H2).
Defined.

(** The day count of Meeus from a year [y'] that is not negative. *)
Lemma Meeus_days (y' m' : Z) :
  (0 <= y')%Z ->
  (36525 * (y' + 4716) / 100
   + (306 * (m' + 1) / 10 + (2 - y' / 100 + y' / 100 / 4))
   = 365 * y' + y' / 4 - y' / 100 + y' / 400
     + 306 * (m' + 1) / 10 + 1722521)%Z.
Proof.
  intros Hy.
  assert (H1 : (36525 * (y' + 4716) / 100
                = 365 * (y' + 4716) + (y' + 4716) / 4)%Z) by div_lia.
  assert (H2 : ((y' + 4716) / 4 = y' / 4 + 1179)%Z) by div_lia.
  assert (H3 : (y' / 100 / 4 = y' / 400)%Z)
    by (rewrite Z.div_div by lia; reflexivity).
  rewrite H1, H2, H3. lia.
Qed.

(** X4.  From the year 1 to the year 10^12 and for the months 1 to 12,
    [CalendarGregorianToMJD] returns and, the float64 sums taken in exact
    real arithmetic, the Julian day of Meeus is its value plus
    2400000.5. *)
Theorem MJD_agrees_with_Meeus (y m : Z) (d : R) :
  (1 <= y <= 1000000000000)%Z -> (1 <= m <= 12)%Z ->
  exists mjd : R,
    CalendarGregorianToMJD y m d = Ret mjd /\
    MeeusCalendarGregorianToJD y m d = Ret (mjd + 2400000.5).
Proof.
  intros [Hy _] Hm. rewrite Meeus_eval by lia. cbv zeta.
  unfold CalendarGregorianToMJD.
  set (y' := if (m <=? 2)%Z then (y - 1)%Z else y).
  set (m' := if (m <=? 2)%Z then (m + 12)%Z else m).
  assert (Hy' : (0 <= y')%Z) by (unfold y'; destruct (m <=? 2)%Z; lia).
  rewrite !Z.quot_div_nonneg by lia.
  assert (Hds : exists ds, index daysSinceFeb m = Ret ds /\
                           (306 * (m' + 1) / 10 = ds + 122)%Z).
  { unfold m'. each_month Hm; eexists; split; reflexivity. }
  destruct Hds as [ds [Hi Hds]]. rewrite Hi. cbn [bind].
  eexists. split; [reflexivity|]. f_equal.
  pose proof (Meeus_days y' m' Hy') as Hz.
  match goal with
  | |- IZR ?t1 + IZR ?t2 + d - 1524.5 = IZR ?t3 + d + 2400000.5 =>
      assert (Hr : IZR t1 + IZR t2 = IZR t3 + IZR 2401525)
        by (rewrite <- !plus_IZR; f_equal; lia)
  end.
  lra.
Qed.

Lemma MJD_agrees_with_Meeus_witness :
  (1 <= 1986 <= 1000000000000)%Z /\ (1 <= 2 <= 12)%Z /\
  exists mjd : R,
    CalendarGregorianToMJD 1986 2 9 = Ret mjd /\
    MeeusCalendarGregorianToJD 1986 2 9 = Ret (mjd + 2400000.5).
Proof.
  assert (H1 : (1 <= 1986 <= 1000000000000)%Z) by lia.
  assert (H2 : (1 <= 2 <= 12)%Z) by lia.
  split; [exact H1|]. split; [exact H2|].
  exact (MJD_agrees_with_Meeus 1986 2 9 H1 H2).
Defined.

(** X5.  A month outside 0 to 12 makes [CalendarGregorianToMJD] panic, on
    the table [daysSinceFeb]; the other two functions take any month. *)
Theorem MJD_month_out_of_range (y m : Z) (d : R) :
  (m < 0 \/ 12 < m)%Z -> CalendarGregorianToMJD y m d = Panic.
Proof.
  intros Hm. unfold CalendarGregorianToMJD, index.
  destruct (Z.ltb_spec m 0) as [Hneg|Hpos]; [reflexivity|].
  destruct (nth_error daysSinceFeb (Z.to_nat m)) as [v|] eqn:E; [|reflexivity].
  exfalso. assert (Hl : (Z.to_nat m < length daysSinceFeb)%nat).
  { apply nth_error_Some. rewrite E. discriminate. }
  cbn in Hl. lia.
Qed.

Lemma MJD_month_out_of_range_witness :
  (13 < 0 \/ 12 < 13)%Z /\ CalendarGregorianToMJD 2000 13 1 = Panic.
Proof.
  assert (H : (13 < 0 \/ 12 < 13)%Z) by (right; lia).
  split; [exact H|]. exact (MJD_month_out_of_range 2000 13 1 H).
Defined.

(** X6.  The day after the last day of a month is the first day of the next
    month: from the year 1 on, the Julian day of Meeus for the day number
    [days_in_month y m + 1] of the month [m] is that of the day 1 of the
    month that follows, through every end of February and of the year. *)
Theorem Meeus_month_rollover (y m : Z) :
  (1 <= y <= 1000000000000)%Z -> (1 <= m <= 12)%Z ->
  MeeusCalendarGregorianToJD y m (IZR (days_in_month y m) + 1)
  = MeeusCalendarGregorianToJD (fst (next_month y m)) (snd (next_month y m)) 1.
Proof.
  intros [Hy _] Hm.
  assert (Hn : (1 <= fst (next_month y m))%Z /\
               (1 <= snd (next_month y m) <= 12)%Z).
  { unfold next_month. destruct (Z.eqb_spec m 12); cbn [fst snd]; lia. }
  destruct Hn as [Hny Hnm].
  rewrite !Meeus_eval by lia. cbv zeta. f_equal.
  match goal with
  | |- IZR ?t1 + IZR ?t2 + (IZR ?dm + 1) - 1524.5
       = IZR ?u1 + IZR ?u2 + 1 - 1524.5 =>
      assert (Hr : IZR t1 + IZR t2 + IZR dm = IZR u1 + IZR u2);
        [rewrite <- !plus_IZR; f_equal | lra]
  end.
  assert (Hleap : (y mod 4 = 0 /\ (y mod 100 <> 0 \/ y mod 400 = 0) /\
                   leap_year y = true \/
                   (y mod 4 <> 0 \/ y mod 100 = 0 /\ y mod 400 <> 0) /\
                   leap_year y = false)%Z).
  { unfold leap_year.
    destruct (Z.eqb_spec (y mod 4) 0); destruct (Z.eqb_spec (y mod 100) 0);
      destruct (Z.eqb_spec (y mod 400) 0); cbn; lia. }
  each_month Hm; cbn [next_month Z.eqb Pos.eqb fst snd Z.leb Z.compare
                        Pos.compare Pos.compare_cont days_in_month];
    repeat match goal with
           | |- context [(?u + ?v <=? 2)%Z] =>
               let w := eval vm_compute in (u + v <=? 2)%Z in
               change (u + v <=? 2)%Z with w
           end;
    cbv iota; rewrite !Meeus_days by lia;
    try (cbn; lia);
    try (replace (y + 1 - 1)%Z with y by lia; cbn; lia).
  destruct Hleap as [[H4 [H100 Hl]]|[H4 Hl]]; rewrite Hl;
    change (306 * (2 + 12 + 1) / 10)%Z with 459%Z;
    change (306 * (2 + 1 + 1) / 10)%Z with 122%Z; div_lia.
Qed.

Lemma Meeus_month_rollover_witness :
  (1 <= 2000 <= 1000000000000)%Z /\ (1 <= 2 <= 12)%Z /\
  MeeusCalendarGregorianToJD 2000 2 (IZR (days_in_month 2000 2) + 1)
  = MeeusCalendarGregorianToJD (fst (next_month 2000 2))
      (snd (next_month 2000 2)) 1.
Proof.
  assert (H1 : (1 <= 2000 <= 1000000000000)%Z) by lia.
  assert (H2 : (1 <= 2 <= 12)%Z) by lia.
  split; [exact H1|]. split; [exact H2|].
  exact (Meeus_month_rollover 2000 2 H1 H2).
Defined.

(** ** [PMod] and what is built on it *)

(** X7.  For a positive [y], [PMod x y] lies in [[0, y)] and differs from [x]
    by a whole multiple of [y]. *)
Theorem PMod_positive_modulus (x y : R) :
  0 < y ->
  0 <= PMod x y < y /\ exists j : Z, PMod x y = x - IZR j * y.
Proof.
  intros Hy. destruct (PMod_residue x y Hy) as [Hr Hj].
  split; [exact Hr | exact Hj].
Qed.

Lemma PMod_positive_modulus_witness :
  0 < 3 /\
  (0 <= PMod (-1) 3 < 3 /\ exists j : Z, PMod (-1) 3 = -1 - IZR j * 3).
Proof.
  assert (H : 0 < 3) by lra.
  split; [exact H|]. exact (PMod_positive_modulus (-1) 3 H).
Defined.

(** Two values of [[0, y)] that differ by a whole multiple of [y] are
    equal. *)
Lemma residue_unique (y r1 r2 : R) (j : Z) :
  0 < y -> 0 <= r1 < y -> 0 <= r2 < y -> r1 - r2 = IZR j * y -> r1 = r2.
Proof.
  intros Hy H1 H2 Hj.
  assert (Hlt : (-1 < j < 1)%Z).
  { split; apply lt_IZR.
    - apply Rmult_lt_reg_r with y; [exact Hy|]. rewrite <- Hj. lra.
    - apply Rmult_lt_reg_r with y; [exact Hy|]. rewrite <- Hj. lra. }
  assert (j = 0%Z) by lia. subst j. lra.
Qed.

Lemma PMod_add_multiple (x y : R) (j : Z) :
  0 < y -> PMod (x + IZR j * y) y = PMod x y.
Proof.
  intros Hy.
  destruct (PMod_residue (x + IZR j * y) y Hy) as [Hr1 [j1 H1]].
  destruct (PMod_residue x y Hy) as [Hr2 [j2 H2]].
  apply (residue_unique y _ _ (j - j1 + j2)%Z Hy Hr1 Hr2).
  rewrite H1, H2, plus_IZR, minus_IZR. lra.
Qed.

(** X8.  In exact real arithmetic, adding whole multiples of a positive
    [y] to [x] does not change [PMod x y]. *)
Theorem PMod_periodic (x y : R) (j : Z) :
  0 < y -> PMod (x + IZR j * y) y = PMod x y.
Proof.
  intros Hy. rewrite (PMod_add_multiple x y j Hy). reflexivity.
Qed.

Lemma PMod_periodic_witness :
  0 < 3 /\ PMod (1 + IZR 5 * 3) 3 = PMod 1 3.
Proof.
  assert (H : 0 < 3) by lra.
  split; [exact H|]. exact (PMod_periodic 1 3 5 H).
Defined.

(** X9.  In exact real arithmetic, the value of [kepler3] does not change
    when whole revolutions are added to the mean anomaly. *)
Theorem kepler3_periodic (e M : R) (j : Z) :
  kepler3 e (M + IZR j * (2 * PI)) = kepler3 e M.
Proof.
  rewrite !kepler3_unfold.
  rewrite PMod_add_multiple by (pose proof PI_gt_3; lra). reflexivity.
Qed.

(** X10.  The value of [kepler3] is never 0 and stays strictly between [-PI]
    and [PI]. *)
Theorem kepler3_range (e M : R) : 0 < Rabs (kepler3 e M) < PI.
Proof.
  pose proof PI_gt_3 as Hpi.
  assert (Hb : forall Mr,
             0 < fst (kepler3_loop e Mr 53 (PI * (1/2), PI * (1/4))) < PI).
  { intros Mr.
    pose proof (kepler3_loop_bounds e Mr 53 (PI * (1/2)) (PI * (1/4))) as Hb.
    cbv zeta in Hb.
    assert (Hp : 0 < PI * (1/4) / 2 ^ 53)
      by (apply Rdiv_lt_0_compat; [lra | apply pow_lt; lra]).
    lra. }
  rewrite kepler3_unfold.
  destruct (Rlt_dec PI (PMod M (2 * PI))) as [Hgt|Hle].
  - destruct (Hb (2 * PI - PMod M (2 * PI))) as [H1 H2].
    set (E := fst (kepler3_loop e (2 * PI - PMod M (2 * PI)) 53
                     (PI * (1/2), PI * (1/4)))) in *.
    rewrite Rabs_Ropp, Rabs_pos_eq by lra. lra.
  - destruct (Hb (PMod M (2 * PI))) as [H1 H2].
    set (E := fst (kepler3_loop e (PMod M (2 * PI)) 53
                     (PI * (1/2), PI * (1/4)))) in *.
    rewrite Rabs_pos_eq by lra. lra.
Qed.

(** ** Sidereal time *)

Lemma Modf_frac_range (x : R) :
  (0 <= x -> 0 <= Modf_frac x < 1) /\ (x < 0 -> -1 < Modf_frac x <= 0).
Proof.
  unfold Modf_frac. split; intros H.
  - apply trunc_nonneg. exact H.
  - apply trunc_neg. exact H.
Qed.

Lemma wrapped_frac_range (x : R) :
  0 <= (if Rlt_dec (Modf_frac x) 0 then Modf_frac x + 1 else Modf_frac x) < 1.
Proof.
  destruct (Modf_frac_range x) as [Hp Hn].
  destruct (Rle_dec 0 x) as [H0|H0].
  - specialize (Hp H0). destruct (Rlt_dec (Modf_frac x) 0); lra.
  - assert (Hx : x < 0) by lra. specialize (Hn Hx).
    destruct (Rlt_dec (Modf_frac x) 0); lra.
Qed.

(** X16.  [Lst] returns an angle of [[0, 2*PI)], for every date and every
    longitude. *)
Theorem Lst_range (mjd long : R) : 0 <= Lst mjd long < 2 * PI.
Proof.
  pose proof PI_gt_3 as Hpi. unfold Lst. cbv zeta.
  match goal with
  | |- 0 <= ?s * 2 * PI < 2 * PI =>
      assert (Hs : 0 <= s < 1) by apply wrapped_frac_range
  end.
  match goal with
  | |- 0 <= ?s * 2 * PI < 2 * PI => generalize dependent s
  end.
  intros s Hs. nra.
Qed.

(** ** The solar ephemeris *)

Lemma sin_cos_unit (x : R) : sin x * sin x + cos x * cos x = 1.
Proof. pose proof (sin2_cos2 x) as H. unfold Rsqr in H. exact H. Qed.

(** X18.  In exact real arithmetic, [Se2000] returns a sine and a cosine
    whose squares add up to 1 and a Sun-Earth vector whose length is
    between 0.98329 and 1.01699 AU. *)
Theorem Se2000_distance (mjd : R) :
  let '(sunEarth, soe, coe) := Se2000 mjd in
  let d2 := cart_X sunEarth * cart_X sunEarth
            + cart_Y sunEarth * cart_Y sunEarth
            + cart_Z sunEarth * cart_Z sunEarth in
  soe * soe + coe * coe = 1 /\
  0.98329 * 0.98329 <= d2 <= 1.01699 * 1.01699.
Proof.
  unfold Se2000. cbv zeta. cbn [cart_X cart_Y cart_Z].
  set (d := mjd - 51544.5).
  set (g := 357.529 + 0.98560028 * d).
  set (ob := (23.439 - 0.00000036 * d) * PI / 180).
  set (lr := (280.459 + 0.98564736 * d + 1.915 * sin (g * PI / 180)
              + 0.020 * sin ((g + g) * PI / 180)) * PI / 180).
  set (r := 1.00014 - 0.01671 * cos (g * PI / 180)
            - 0.00014 * cos ((g + g) * PI / 180)).
  pose proof (sin_cos_unit ob) as Hob.
  pose proof (sin_cos_unit lr) as Hlr.
  split; [exact Hob|].
  assert (Hd : r * cos lr * (r * cos lr)
               + r * sin lr * cos ob * (r * sin lr * cos ob)
               + r * sin lr * sin ob * (r * sin lr * sin ob) = r * r).
  { transitivity (r * r * (cos lr * cos lr
                           + sin lr * sin lr * (sin ob * sin ob + cos ob * cos ob)));
      [ring|]. rewrite Hob. rewrite Rmult_1_r.
    replace (cos lr * cos lr + sin lr * sin lr)
      with (sin lr * sin lr + cos lr * cos lr) by ring.
    rewrite Hlr. ring. }
  rewrite Hd.
  assert (Hr : 0.98329 <= r <= 1.01699).
  { unfold r. pose proof (COS_bound (g * PI / 180)).
    pose proof (COS_bound ((g + g) * PI / 180)). lra. }
  nra.
Qed.

(** ** Rectangular coordinates of a planet *)

(** X19.  [xyzr] returns for every planet and date; its fourth result is the
    radius of [Position2000], handed on as it is, and [SolarPositionJ2000]
    returns the same radius; in exact real arithmetic that radius is the
    length of the vector of the first three results of [xyzr]. *)
Theorem xyzr_keeps_the_radius (e : V87Planet) (jde : R) :
  exists L B R0 x y z x' y' z' : R,
    Position2000 e jde = Ret (L, B, R0) /\
    xyzr e jde = Ret (x, y, z, R0) /\
    x * x + y * y + z * z = R0 * R0 /\
    SolarPositionJ2000 e jde = Ret (x', y', z', R0).
Proof.
  set (tau := J2000Century jde * (1/10)).
  set (sl := poly tau (sum_args tau (v_l e)) 0).
  set (sb := poly tau (sum_args tau (v_b e)) 0).
  set (sr := poly tau (sum_args tau (v_r e)) 0).
  assert (HP : Position2000 e jde = Ret (Mod1 sl, sb, sr)).
  { unfold Position2000. fold tau. rewrite !sum_value. reflexivity. }
  unfold SolarPositionJ2000, xyzr. rewrite HP. cbn [bind].
  do 9 eexists. split; [reflexivity|]. split; [reflexivity|].
  split; [|reflexivity].
  pose proof (sin_cos_unit (Mod1 sl + PI)) as H1.
  pose proof (sin_cos_unit (- sb)) as H2.
  transitivity (sr * sr * (cos (- sb) * cos (- sb)
                           * (sin (Mod1 sl + PI) * sin (Mod1 sl + PI)
                              + cos (Mod1 sl + PI) * cos (Mod1 sl + PI))
                           + sin (- sb) * sin (- sb))); [ring|].
  rewrite H1, Rmult_1_r.
  replace (cos (- sb) * cos (- sb) + sin (- sb) * sin (- sb))
    with (sin (- sb) * sin (- sb) + cos (- sb) * cos (- sb)) by ring.
  rewrite H2. ring.
Qed.

(** ** The series at the epoch *)

Lemma poly_at_zero (c0 : R) (c : list R) : poly 0 (c0 :: c) 0 = c0.
Proof.
  cbn [poly]. rewrite poly_shift. simpl. lra.
Qed.

(** X20.  At the date [J2000] the time variable is 0 and only the terms of the
    power 0 count: each of the three results is the sum of
    [a * cos b] over the terms of the slot 0 of its table, the longitude
    wrapped to one revolution. *)
Theorem Position2000_at_epoch (vt : V87Planet) :
  Position2000 vt J2000
  = Ret (Mod1 (term_sum 0 (pow0 (v_l vt))),
         term_sum 0 (pow0 (v_b vt)),
         term_sum 0 (pow0 (v_r vt))).
Proof.
  unfold Position2000.
  replace (J2000Century J2000 * (1/10)) with 0
    by (unfold J2000Century; unfold Rdiv; ring).
  rewrite !sum_value. cbn [bind].
  rewrite !sum_args_slots. unfold slots. cbn [map].
  rewrite !poly_at_zero. reflexivity.
Qed.

(** ** The orbit model: distance *)

(** X21.  With an eccentricity and an axis that are not negative, the distance
    that [Position] returns lies between the perihelion distance
    [Axis * (1 - Ecc)] and the aphelion distance [Axis * (1 + Ecc)]. *)
Theorem Position_distance_bounds (k0 : Elements) (jde : R) :
  0 <= Ecc k0 -> 0 <= Axis k0 ->
  let '(_, _, _, r) := Position (NewOrbit k0) jde in
  Axis k0 * (1 - Ecc k0) <= r <= Axis k0 * (1 + Ecc k0).
Proof.
  intros He Ha. unfold Position. cbn [NewOrbit k n].
  unfold radius.
  set (E := kepler (Ecc k0) _).
  pose proof (COS_bound E) as Hc.
  assert (H1 : 0 <= Ecc k0 * (1 - cos E)) by (apply Rmult_le_pos; lra).
  assert (H2 : 0 <= Ecc k0 * (1 + cos E)) by (apply Rmult_le_pos; lra).
  split; apply Rmult_le_compat_l; lra.
Qed.

Lemma Position_distance_bounds_witness :
  0 <= Ecc circular /\ 0 <= Axis circular /\
  (let '(_, _, _, r) := Position (NewOrbit circular) 0 in
   Axis circular * (1 - Ecc circular) <= r
   <= Axis circular * (1 + Ecc circular)).
Proof.
  assert (H1 : 0 <= Ecc circular) by (cbn; lra).
  assert (H2 : 0 <= Axis circular) by (cbn; lra).
  split; [exact H1|]. split; [exact H2|].
  exact (Position_distance_bounds circular 0 H1 H2).
Defined.

(** ** The Kepler solver: accuracy of the bisection *)

Lemma sin_above_minus (t : R) : 0 < t -> - t < sin t.
Proof.
  intros Ht. pose proof PI_gt_3 as Hpi.
  destruct (Rlt_dec t PI) as [Hlt|Hge].
  - pose proof (sin_gt_0 t Ht Hlt). lra.
  - pose proof (SIN_bound t). lra.
Qed.

(** The sine grows more slowly than its argument. *)
Lemma sin_diff_lt (x y : R) : x < y -> sin y - sin x < y - x.
Proof.
  intros Hxy. rewrite form4.
  set (t := (y - x) / 2). set (c0 := cos ((y + x) / 2)).
  assert (Ht : 0 < t) by (unfold t; lra).
  pose proof (sin_lt_x t Ht) as Hs1.
  pose proof (sin_above_minus t Ht) as Hs2.
  pose proof (COS_bound ((y + x) / 2)) as Hc. fold c0 in Hc.
  replace (y - x) with (2 * t) by (unfold t; field).
  assert (Hcs : c0 * sin t < t).
  { destruct (Rle_dec 0 (sin t)) as [Hp|Hn].
    - assert (c0 * sin t <= 1 * sin t)
        by (apply Rmult_le_compat_r; lra). lra.
    - assert ((c0 + 1) * (- sin t) >= 0)
        by (apply Rle_ge, Rmult_le_pos; lra). lra. }
  lra.
Qed.

(** For an eccentricity of [[0, 1]] the implied mean anomaly grows with
    the eccentric anomaly. *)
Lemma implied_increasing (e x y : R) :
  0 <= e <= 1 -> x < y -> implied e x < implied e y.
Proof.
  intros He Hxy. unfold implied.
  pose proof (sin_diff_lt x y Hxy) as Hs.
  destruct (Rle_dec (sin y - sin x) 0) as [Hn|Hp].
  - assert (e * (sin y - sin x) <= 0).
    { rewrite <- (Rmult_0_r e). apply Rmult_le_compat_l; lra. }
    lra.
  - assert (e * (sin y - sin x) <= 1 * (sin y - sin x))
      by (apply Rmult_le_compat_r; lra).
    lra.
Qed.

(** The bisection keeps a solution between [E0 - 2*d] and [E0 + 2*d]. *)
Lemma kepler3_loop_brackets (e Mr Es : R) (iters : nat) (E0 d : R) :
  0 <= e <= 1 -> 0 < d -> implied e Es = Mr ->
  E0 - 2 * d <= Es <= E0 + 2 * d ->
  fst (kepler3_loop e Mr iters (E0, d)) - 2 * (d / 2 ^ iters) <= Es
  <= fst (kepler3_loop e Mr iters (E0, d)) + 2 * (d / 2 ^ iters).
Proof.
  intros He Hd Hroot. revert E0 d Hd.
  induction iters as [|iters IH]; intros E0 d Hd Hb.
  - simpl. replace (d / 1) with d by field. exact Hb.
  - cbn [kepler3_loop kepler3_step].
    replace (d / 2 ^ S iters) with (d * (1/2) / 2 ^ iters)
      by (simpl pow; field; apply pow_nonzero; lra).
    apply IH; [lra|].
    fold (implied e E0).
    destruct (Rlt_dec (Mr - implied e E0) 0) as [Hlt|Hge].
    + assert (Es < E0).
      { destruct (Rlt_dec Es E0) as [H|H]; [exact H|exfalso].
        destruct (Req_dec Es E0) as [Heq|Hne].
        - subst Es. lra.
        - assert (E0 < Es) by lra.
          pose proof (implied_increasing e E0 Es He H0). lra. }
      lra.
    + assert (E0 <= Es).
      { destruct (Rle_dec E0 Es) as [H|H]; [exact H|exfalso].
        assert (Es < E0) by lra.
        pose proof (implied_increasing e Es E0 He H0). lra. }
      lra.
Qed.

(** Kepler's equation has a solution in [[0, PI]] for every mean anomaly
    of [[0, PI]]. *)
Lemma kepler_equation_solvable (e Mr : R) :
  0 <= Mr <= PI -> exists Es, 0 <= Es <= PI /\ implied e Es = Mr.
Proof.
  intros HM. pose proof PI_gt_3 as Hpi.
  assert (Hc : continuity (fun E => E - e * sin E - Mr)).
  { apply continuity_minus; [|apply continuity_const; intros u v; reflexivity].
    apply continuity_minus; [apply derivable_continuous, derivable_id|].
    apply continuity_mult; [apply continuity_const; intros u v; reflexivity|].
    apply continuity_sin. }
  destruct (IVT_cor (fun E => E - e * sin E - Mr) 0 PI Hc) as [z [Hz Hf]].
  - lra.
  - rewrite sin_0, sin_PI.
    replace (0 - e * 0 - Mr) with (- Mr) by ring.
    replace (PI - e * 0 - Mr) with (PI - Mr) by ring.
    assert (0 <= Mr * (PI - Mr)) by (apply Rmult_le_pos; lra). lra.
  - exists z. split; [exact Hz|]. unfold implied. lra.
Qed.

Lemma kepler3_loop_near_solution (e Mr : R) :
  0 <= e <= 1 -> 0 <= Mr <= PI ->
  exists Es, 0 <= Es <= PI /\ implied e Es = Mr /\
    Rabs (fst (kepler3_loop e Mr 53 (PI * (1/2), PI * (1/4))) - Es)
    <= PI / 2 ^ 54.
Proof.
  intros He HM. pose proof PI_gt_3 as Hpi.
  destruct (kepler_equation_solvable e Mr HM) as [Es [HEs Hroot]].
  exists Es. split; [exact HEs|]. split; [exact Hroot|].
  pose proof (kepler3_loop_brackets e Mr Es 53 (PI * (1/2)) (PI * (1/4))
                He ltac:(lra) Hroot ltac:(lra)) as Hb.
  replace (2 * (PI * (1/4) / 2 ^ 53)) with (PI / 2 ^ 54) in Hb
    by (change (2 ^ 54) with (2 * 2 ^ 53); field; apply pow_nonzero; lra).
  apply Rabs_le. lra.
Qed.

(** A solution for the mirrored target, negated, is a solution for the
    mean anomaly itself, one revolution further. *)
Lemma mirrored_solution (e M : R) (j : Z) (Es E' : R) :
  PMod M (2 * PI) = M - IZR j * (2 * PI) ->
  0 <= Es <= PI ->
  implied e Es = 2 * PI - PMod M (2 * PI) ->
  Rabs (E' - Es) <= PI / 2 ^ 54 ->
  exists (Es0 : R) (j0 : Z),
    - PI <= Es0 <= PI /\
    implied e Es0 = M - IZR j0 * (2 * PI) /\
    Rabs (- E' - Es0) <= PI / 2 ^ 54.
Proof.
  intros Hj HEs Hroot Hacc.
  exists (- Es), (j + 1)%Z. split; [lra|]. split.
  - unfold implied in *. rewrite sin_neg, plus_IZR. lra.
  - assert (Hx : - E' - - Es = - (E' - Es)) by ring.
    rewrite Hx, Rabs_Ropp. exact Hacc.
Qed.

(** X11.  For an eccentricity of [[0, 1]] and every mean anomaly [M],
    [kepler3] returns a value within [PI / 2^54] of an exact solution
    [Es] of Kepler's equation for [M] less a whole number of revolutions,
    with [Es] in [[-PI, PI]]. *)
Theorem kepler3_accuracy (e M : R) :
  0 <= e <= 1 ->
  exists (Es : R) (j : Z),
    - PI <= Es <= PI /\
    implied e Es = M - IZR j * (2 * PI) /\
    Rabs (kepler3 e M - Es) <= PI / 2 ^ 54.
Proof.
  intros He. pose proof PI_gt_3 as Hpi.
  assert (H2pi : 0 < 2 * PI) by lra.
  destruct (PMod_residue M (2 * PI) H2pi) as [Hr [j Hj]].
  rewrite kepler3_unfold.
  destruct (Rlt_dec PI (PMod M (2 * PI))) as [Hgt|Hle].
  - assert (Hm : 0 <= 2 * PI - PMod M (2 * PI) <= PI) by lra.
    destruct (kepler3_loop_near_solution e _ He Hm) as [Es [HEs [Hroot Hacc]]].
    exact (mirrored_solution e M j Es _ Hj HEs Hroot Hacc).
  - assert (Hm : 0 <= PMod M (2 * PI) <= PI) by lra.
    destruct (kepler3_loop_near_solution e _ He Hm) as [Es [HEs [Hroot Hacc]]].
    exists Es, j. split; [lra|]. split; [|exact Hacc].
    rewrite Hroot. exact Hj.
Qed.

Lemma kepler3_accuracy_witness :
  0 <= 0 <= 1 /\
  exists (Es : R) (j : Z),
    - PI <= Es <= PI /\
    implied 0 Es = 5 - IZR j * (2 * PI) /\
    Rabs (kepler3 0 5 - Es) <= PI / 2 ^ 54.
Proof.
  assert (H : 0 <= 0 <= 1) by lra.
  split; [exact H|]. exact (kepler3_accuracy 0 5 H).
Defined.

(** X12.  In exact real arithmetic, with eccentricity 0 and a mean anomaly
    of [[0, PI]], [kepler] returns a value within [PI / 2^54] of the mean
    anomaly. *)
Theorem kepler_circular_first_half (M : R) :
  0 <= M <= PI -> Rabs (kepler 0 M - M) <= PI / 2 ^ 54.
Proof.
  intros HM. pose proof PI_gt_3 as Hpi.
  pose proof (kepler_by_outcome 0 M) as Hk.
  rewrite kepler2b_circular in Hk. rewrite Hk, kepler3_unfold.
  rewrite (PMod_small M (2 * PI)) by lra.
  destruct (Rlt_dec PI M) as [Hgt|_]; [lra|].
  assert (H0 : 0 <= 0 <= 1) by lra.
  destruct (kepler3_loop_near_solution 0 M H0 HM) as [Es [HEs [Hroot Hacc]]].
  assert (HEsM : Es = M) by (unfold implied in Hroot; lra).
  rewrite HEsM in Hacc. exact Hacc.
Qed.

Lemma kepler_circular_first_half_witness :
  0 <= 1 <= PI /\ Rabs (kepler 0 1 - 1) <= PI / 2 ^ 54.
Proof.
  assert (H : 0 <= 1 <= PI) by (pose proof PI_gt_3; lra).
  split; [exact H|]. exact (kepler_circular_first_half 1 H).
Defined.

(** ** The Kepler solver: the iteration *)

Lemma iterate_loop_converged (better : R -> R) (d start : R) (iters : nat)
    (v : R) :
  iterate_loop better d start iters = (v, None) ->
  (0 < iters)%nat /\ exists prev, v = better prev /\ Rabs (v - prev) < d.
Proof.
  revert start. induction iters as [|iters IH]; intros start H.
  - discriminate H.
  - cbn [iterate_loop] in H.
    destruct (Rlt_dec (Rabs (better start - start)) d) as [Hlt|Hge].
    + inversion H. subst v. split; [lia|]. exists start. split; [reflexivity|exact Hlt].
    + destruct (IH _ H) as [_ Hp]. split; [lia | exact Hp].
Qed.

(** X13.  When [iterateDecimalPlaces] returns a nil error, the budget was
    positive and the value returned is the improvement of a value that
    it differs from by less than [10^-places]. *)
Theorem iterateDecimalPlaces_converged (better : R -> R) (start : R)
    (places maxIterations : Z) (v : R) :
  iterateDecimalPlaces better start places maxIterations = (v, None) ->
  (0 < maxIterations)%Z /\
  exists prev, v = better prev /\ Rabs (v - prev) < powerRZ 10 (- places).
Proof.
  unfold iterateDecimalPlaces. intros H.
  destruct (iterate_loop_converged _ _ _ _ _ H) as [Hi Hp].
  split; [lia | exact Hp].
Qed.

Lemma iterateDecimalPlaces_converged_witness :
  iterateDecimalPlaces (kepler2b_f 0 5) 5 15 15 = (5, None) /\
  ((0 < 15)%Z /\
   exists prev, 5 = kepler2b_f 0 5 prev /\ Rabs (5 - prev) < powerRZ 10 (- 15)).
Proof.
  assert (H : iterateDecimalPlaces (kepler2b_f 0 5) 5 15 15 = (5, None))
    by exact (kepler2b_circular 5).
  split; [exact H|].
  exact (iterateDecimalPlaces_converged (kepler2b_f 0 5) 5 15 15 5 H).
Defined.

Lemma pow_10_ge (m : nat) : (1 <= m)%nat -> 10 <= 10 ^ m.
Proof.
  intros Hm. destruct m as [|m]; [lia|]. clear Hm.
  induction m as [|m IH]; [simpl; lra|].
  change (10 ^ S (S m)) with (10 * 10 ^ S m). lra.
Qed.

Lemma tolerance_at_most_tenth (places : Z) :
  (1 <= places)%Z -> powerRZ 10 (- places) <= 1 / 10.
Proof.
  intros Hp. rewrite powerRZ_neg'.
  rewrite <- (Z2Nat.id places) by lia. rewrite <- pow_powerRZ.
  pose proof (pow_10_ge (Z.to_nat places) ltac:(lia)) as H10.
  unfold Rdiv. rewrite Rmult_1_l.
  apply Rinv_le_contravar; lra.
Qed.

(** X14.  In exact real arithmetic, when [kepler2b] returns a nil error for
    at least one decimal place and an eccentricity of [[0, 1)], the value
    returned is an undamped Newton step from a value [E0] at which
    Kepler's equation holds up to [10^-places * (1 + e)].  (In float64 the
    sum [E0 + d] is rounded to the spacing of the numbers near [E0], so
    the test can pass with a larger step.) *)
Theorem kepler2b_residual (e M : R) (places : Z) (E : R) :
  0 <= e < 1 -> (1 <= places)%Z ->
  kepler2b e M places = (E, None) ->
  exists E0,
    E = E0 + (M + e * sin E0 - E0) / (1 - e * cos E0) /\
    Rabs (M - implied e E0) < powerRZ 10 (- places) * (1 + e).
Proof.
  intros He Hp H. unfold kepler2b in H.
  unfold iterateDecimalPlaces in H.
  destruct (iterate_loop_converged _ _ _ _ _ H) as [_ [E0 [HE Hd]]].
  pose proof (tolerance_at_most_tenth places Hp) as Ht.
  exists E0. unfold kepler2b_f in HE. cbv zeta in HE.
  set (den := 1 - e * cos E0) in *.
  set (num := M + e * sin E0 - E0) in *.
  pose proof (COS_bound E0) as Hc.
  assert (Hden : 0 < den <= 1 + e).
  { unfold den. split.
    - assert (e * cos E0 <= e * 1) by (apply Rmult_le_compat_l; lra). lra.
    - assert (e * -1 <= e * cos E0) by (apply Rmult_le_compat_l; lra). lra. }
  destruct (Rlt_dec (1/2) (num / den)) as [Hhi|Hhi].
  { exfalso. subst E. replace (E0 + 1/2 - E0) with (1/2) in Hd by ring.
    rewrite Rabs_pos_eq in Hd by lra. lra. }
  destruct (Rlt_dec (num / den) (- (1/2))) as [Hlo|Hlo].
  { exfalso. subst E. replace (E0 + - (1/2) - E0) with (- (1/2)) in Hd by ring.
    rewrite Rabs_Ropp, Rabs_pos_eq in Hd by lra. lra. }
  split; [exact HE|].
  subst E. replace (E0 + num / den - E0) with (num / den) in Hd by ring.
  replace (M - implied e E0) with (num / den * den)
    by (unfold implied, num; field; lra).
  rewrite Rabs_mult, (Rabs_pos_eq den) by lra.
  apply Rle_lt_trans with (Rabs (num / den) * (1 + e)).
  - apply Rmult_le_compat_l; [apply Rabs_pos | lra].
  - apply Rmult_lt_compat_r; lra.
Qed.

Lemma kepler2b_residual_witness :
  0 <= 0 < 1 /\ (1 <= 15)%Z /\ kepler2b 0 5 15 = (5, None) /\
  exists E0,
    5 = E0 + (5 + 0 * sin E0 - E0) / (1 - 0 * cos E0) /\
    Rabs (5 - implied 0 E0) < powerRZ 10 (- 15) * (1 + 0).
Proof.
  assert (H1 : 0 <= 0 < 1) by lra.
  assert (H2 : (1 <= 15)%Z) by lia.
  assert (H3 : kepler2b 0 5 15 = (5, None)) by exact (kepler2b_circular 5).
  split; [exact H1|]. split; [exact H2|]. split; [exact H3|].
  exact (kepler2b_residual 0 5 15 5 H1 H2 H3).
Defined.

(** X15.  Asked for no decimal place, or for a negative number of them,
    [kepler2b] has no iteration to spend and reports the failure. *)
Theorem kepler2b_no_budget (e M : R) (places : Z) :
  (places <= 0)%Z ->
  kepler2b e M places = (0, Some (errors_New "Maximum iterations reached")).
Proof.
  intros Hp. unfold kepler2b, iterateDecimalPlaces.
  replace (Z.to_nat places) with 0%nat by lia. reflexivity.
Qed.

Lemma kepler2b_no_budget_witness :
  (0 <= 0)%Z /\
  kepler2b (1/2) 1 0 = (0, Some (errors_New "Maximum iterations reached")).
Proof.
  assert (H : (0 <= 0)%Z) by lia.
  split; [exact H|]. exact (kepler2b_no_budget (1/2) 1 0 H).
Defined.

(** ** The loader: the data lines of a block *)

Section BlockFacts.

Variable ParseFloat : string -> option R.

Lemma slice_value (s : string) (lo hi : nat) (v : string) :
  slice s lo hi = Ret v ->
  v = substring lo (hi - lo) s /\ (hi <= String.length s)%nat.
Proof.
  unfold slice. intros H.
  destruct (Nat.leb lo hi) eqn:E1; [|discriminate H].
  destruct (Nat.leb hi (String.length s)) eqn:E2; [|discriminate H].
  cbn [andb] in H. inversion H. split; [reflexivity|].
  apply Nat.leb_le. exact E2.
Qed.

(** What [parse_block] returns when it returns: either the terms read so
    far followed by one term for each line of the block, in the order of
    the lines, or an error that names the line of the block it stopped
    at. *)
Lemma parse_block_result (block : list string) (n cx : Z) (acc : list abc)
    (res : list abc + error) :
  parse_block ParseFloat block n cx acc = Ret res ->
  match res with
  | inl terms =>
      exists new_terms,
        terms = rev acc ++ new_terms /\
        Forall2 (fun line t => term_of_line ParseFloat line = Some t)
                block new_terms
  | inr err =>
      exists (i : nat) (cs : cause),
        err = Errorf_line (n + cx + Z.of_nat i + 1) cs /\
        (i < length block)%nat
  end.
Proof.
  revert cx acc. induction block as [|line block IH]; intros cx acc H.
  - cbn [parse_block] in H. inversion H. exists []. split.
    + rewrite app_nil_r. reflexivity.
    + constructor.
  - cbn [parse_block] in H.
    destruct (2047 <=? cx)%Z; [discriminate H|].
    destruct (slice line 79 97) as [sa| |] eqn:Ea; cbn [bind] in H;
      try discriminate H.
    apply slice_value in Ea. destruct Ea as [Ea _]. cbn in Ea. subst sa.
    assert (Hstop : exists (i : nat) (cs : cause),
               Errorf_line (n + cx + 1) (Verb "strconv.ParseFloat")
               = Errorf_line (n + cx + Z.of_nat i + 1) cs /\
               (i < length (line :: block))%nat).
    { exists 0%nat, (Verb "strconv.ParseFloat"). split.
      - f_equal. cbn. lia.
      - cbn. lia. }
    destruct (ParseFloat (TrimSpace (substring 79 18 line))) as [va|] eqn:Pa;
      [|inversion H; exact Hstop].
    destruct (slice line 98 111) as [sb| |] eqn:Eb; cbn [bind] in H;
      try discriminate H.
    apply slice_value in Eb. destruct Eb as [Eb _]. cbn in Eb. subst sb.
    destruct (ParseFloat (substring 98 13 line)) as [vb|] eqn:Pb;
      [|inversion H; exact Hstop].
    destruct (slice line 111 131) as [sc| |] eqn:Ec; cbn [bind] in H;
      try discriminate H.
    apply slice_value in Ec. destruct Ec as [Ec _]. cbn in Ec. subst sc.
    destruct (ParseFloat (TrimSpace (substring 111 20 line))) as [vc|] eqn:Pc;
      [|inversion H; exact Hstop].
    specialize (IH _ _ H). destruct res as [terms|err].
    + destruct IH as [new_terms [Ht Hf]].
      exists ({| abc_a := va; abc_b := vb; abc_c := vc |} :: new_terms). split.
      * rewrite Ht. cbn [rev]. rewrite <- app_assoc. reflexivity.
      * constructor; [|exact Hf].
        unfold term_of_line. rewrite Pa, Pb, Pc. reflexivity.
    + destruct IH as [i [cs [He Hi]]].
      exists (S i), cs. split.
      * rewrite He. f_equal. lia.
      * cbn. lia.
Qed.

(** A block of lines that are all well formed is read up to the 2047th
    line: with more lines than that the loop runs over the end of the
    buffer [cbuf]. *)
Lemma parse_block_overflow (block : list string) (n cx : Z) (acc : list abc) :
  Forall (good_data_line ParseFloat) block ->
  (0 <= cx <= 2047)%Z -> (2047 < cx + Z.of_nat (length block))%Z ->
  parse_block ParseFloat block n cx acc = Panic.
Proof.
  intros Hg. revert cx acc. induction Hg as [|line block Hl Hg IH];
    intros cx acc Hcx Hlen.
  - cbn in Hlen. lia.
  - cbn [parse_block].
    destruct (Z.leb_spec 2047 cx) as [Hfull|Hroom]; [reflexivity|].
    destruct Hl as [Hlen131 [Pa [Pb Pc]]].
    unfold slice.
    replace (Nat.leb 97 (String.length line)) with true
      by (symmetry; apply Nat.leb_le; lia).
    replace (Nat.leb 111 (String.length line)) with true
      by (symmetry; apply Nat.leb_le; lia).
    replace (Nat.leb 131 (String.length line)) with true
      by (symmetry; apply Nat.leb_le; lia).
    cbn [Nat.leb andb bind Nat.sub].
    destruct (ParseFloat (TrimSpace (substring 79 18 line))) as [va|];
      [|contradiction].
    destruct (ParseFloat (substring 98 13 line)) as [vb|]; [|contradiction].
    destruct (ParseFloat (TrimSpace (substring 111 20 line))) as [vc|];
      [|contradiction].
    apply IH; [lia|]. cbn [length] in Hlen. lia.
Qed.

End BlockFacts.

(** X23.  When the data loop returns terms, it returns one term for each line
    of the block, read from that line, in the order of the lines. *)
Theorem parse_block_reads_in_order (ParseFloat : string -> option R)
    (block : list string) (n : Z) (terms : list abc) :
  parse_block ParseFloat block n 0 [] = Ret (inl terms) ->
  Forall2 (fun line t => term_of_line ParseFloat line = Some t) block terms.
Proof.
  intros H. apply parse_block_result in H.
  destruct H as [new_terms [Ht Hf]]. cbn in Ht. subst terms. exact Hf.
Qed.

Lemma parse_block_reads_in_order_witness :
  parse_block (fun _ => Some 1) [data_line; data_line] 1 0 []
  = Ret (inl [term 1 1 1; term 1 1 1]) /\
  Forall2 (fun line t => term_of_line (fun _ => Some 1) line = Some t)
          [data_line; data_line] [term 1 1 1; term 1 1 1].
Proof.
  assert (H : parse_block (fun _ => Some 1) [data_line; data_line] 1 0 []
              = Ret (inl [term 1 1 1; term 1 1 1])) by reflexivity.
  split; [exact H|].
  exact (parse_block_reads_in_order (fun _ => Some 1)
           [data_line; data_line] 1 [term 1 1 1; term 1 1 1] H).
Defined.

(** X24.  A block of more than 2047 well-formed data lines makes the data loop
    panic: the buffer [cbuf] has 2047 places. *)
Theorem parse_block_buffer_overflow (ParseFloat : string -> option R)
    (block : list string) (n : Z) :
  Forall (good_data_line ParseFloat) block ->
  (2047 < length block)%nat ->
  parse_block ParseFloat block n 0 [] = Panic.
Proof.
  intros Hg Hlen. apply parse_block_overflow; [exact Hg | lia | lia].
Qed.

Lemma good_data_line_example : good_data_line (fun _ => Some 0) data_line.
Proof.
  unfold good_data_line. split; [vm_compute; lia|].
  split; [discriminate|]. split; discriminate.
Qed.

Lemma parse_block_buffer_overflow_witness :
  Forall (good_data_line (fun _ => Some 0)) (repeat data_line 2048) /\
  (2047 < length (repeat data_line 2048))%nat /\
  parse_block (fun _ => Some 0) (repeat data_line 2048) 1 0 [] = Panic.
Proof.
  assert (H1 : Forall (good_data_line (fun _ => Some 0)) (repeat data_line 2048)).
  { apply Forall_forall. intros x Hx. apply repeat_spec in Hx. subst x.
    exact good_data_line_example. }
  assert (H2 : (2047 < length (repeat data_line 2048))%nat)
    by (rewrite repeat_length; lia).
  split; [exact H1|]. split; [exact H2|].
  exact (parse_block_buffer_overflow (fun _ => Some 0)
           (repeat data_line 2048) 1 H1 H2).
Defined.

(** ** The loader: line numbers, results and the world *)

Lemma slice_lines_length (lines block : list string) (lo hi : Z) :
  slice_lines lines lo hi = Ret block ->
  (0 <= lo <= hi)%Z /\ (hi <= Z.of_nat (length lines))%Z /\
  Z.of_nat (length block) = (hi - lo)%Z.
Proof.
  unfold slice_lines. intros H.
  destruct (Z.leb_spec 0 lo) as [H0|H0]; [|discriminate H].
  destruct (Z.leb_spec lo hi) as [H1|H1]; [|discriminate H].
  destruct (Z.leb_spec hi (Z.of_nat (length lines))) as [H2|H2];
    [|discriminate H].
  cbn [andb] in H. inversion H.
  split; [lia|]. split; [lia|].
  rewrite length_firstn, length_skipn. lia.
Qed.

(** X25.  When [parse] returns, the index it returns is not before the one it
    started from and not beyond the end of the lines (unless it started
    there), and an error that names a line names a line of the input,
    after the lines that were already read. *)
Theorem parse_stays_within_the_lines (ParseFloat : string -> option R)
    (fuel : nat) (c : coeff) (ic : ascii) (ibody : Z) (lines : list string)
    (n : Z) (au : bool) (c' : coeff) (n' : Z) (err : option error) :
  (0 <= n)%Z ->
  parse ParseFloat fuel c ic ibody lines n au = Ret (c', (n', err)) ->
  (n <= n' <= Z.max n (Z.of_nat (length lines)))%Z /\
  forall (ln : Z) (cs : cause),
    err = Some (Errorf_line ln cs) ->
    (n < ln <= Z.of_nat (length lines))%Z.
Proof.
  revert c n. induction fuel as [|fuel IH]; intros c n Hn H;
    [discriminate H|].
  cbn [parse] in H.
  assert (Hstay : forall c0 : coeff,
             Ret (c0, (n, @None error)) = Ret (c', (n', err)) ->
             (n <= n' <= Z.max n (Z.of_nat (length lines)))%Z /\
             forall (ln : Z) (cs : cause),
               err = Some (Errorf_line ln cs) ->
               (n < ln <= Z.of_nat (length lines))%Z).
  { intros c0 H0. inversion H0. subst. split; [lia|]. intros; discriminate. }
  destruct (Z.ltb_spec n (Z.of_nat (length lines))) as [Hlt|Hge];
    [|exact (Hstay _ H)].
  assert (Hhead : forall (c0 : coeff) (cs0 : cause),
             Ret (c0, (n, Some (Errorf_line (n + 1) cs0)))
             = Ret (c', (n', err)) ->
             (n <= n' <= Z.max n (Z.of_nat (length lines)))%Z /\
             forall (ln : Z) (cs : cause),
               err = Some (Errorf_line ln cs) ->
               (n < ln <= Z.of_nat (length lines))%Z).
  { intros c0 cs0 H0. inversion H0. subst. split; [lia|].
    intros ln cs Hc. inversion Hc. lia. }
  destruct (index lines n) as [line| |]; cbn [bind] in H; try discriminate H.
  destruct (Nat.ltb (String.length line) 132); [exact (Hstay _ H)|].
  destruct (byte_at line 41) as [ch41| |]; cbn [bind] in H;
    try discriminate H.
  destruct (negb (Ascii.eqb ch41 ic)); [exact (Hstay _ H)|].
  destruct (byte_at line 17) as [iv| |]; cbn [bind] in H; try discriminate H.
  destruct (negb (Ascii.eqb iv fileVersion)); [exact (Hhead _ _ H)|].
  destruct (slice line 22 29) as [bo| |]; cbn [bind] in H; try discriminate H.
  destruct (index b7 ibody) as [name| |]; cbn [bind] in H; try discriminate H.
  destruct (negb (String.eqb bo name)); [exact (Hhead _ _ H)|].
  destruct (byte_at line 59) as [ch59| |]; cbn [bind] in H;
    try discriminate H.
  destruct (slice line 60 67) as [cnt| |]; cbn [bind] in H; try discriminate H.
  destruct (Atoi (TrimSpace cnt)) as [in_|]; [|exact (Hhead _ _ H)].
  destruct (Z.eqb_spec in_ 0) as [Hz|Hnz]; [exact (IH _ _ Hn H)|].
  destruct (in_ >? Z.of_nat (length lines) - n)%Z.
  { inversion H. subst. split; [lia|]. intros; discriminate. }
  destruct (slice_lines lines (n + 1) (n + 1 + in_)) as [block| |] eqn:Hsl;
    cbn [bind] in H; try discriminate H.
  apply slice_lines_length in Hsl. destruct Hsl as [Hlo [Hhi Hbl]].
  destruct (parse_block ParseFloat block (n + 1) 0 []) as [res| |] eqn:Hpb;
    cbn [bind] in H; try discriminate H.
  apply parse_block_result in Hpb.
  destruct res as [terms|e].
  - destruct (set_slot c _ terms) as [c1| |]; cbn [bind] in H;
      try discriminate H.
    assert (Hn1 : (0 <= n + 1 + in_)%Z) by lia.
    destruct (IH _ _ Hn1 H) as [Hn' Hln]. split; [lia|].
    intros ln cs Hc. specialize (Hln ln cs Hc). lia.
  - destruct Hpb as [i [cs0 [He Hi]]]. inversion H. subst.
    split; [lia|]. intros ln cs Hc. inversion Hc. lia.
Qed.

Lemma parse_stays_within_the_lines_witness :
  (0 <= 0)%Z /\
  parse (fun _ => None) 1 coeff_zero "1" Earth [header_one; data_line] 0 false
  = Ret (coeff_zero,
         (1%Z, Some (Errorf_line 2 (Verb "strconv.ParseFloat")))) /\
  ((0 <= 1 <= Z.max 0 (Z.of_nat (length [header_one; data_line])))%Z /\
   forall (ln : Z) (cs : cause),
     Some (Errorf_line 2 (Verb "strconv.ParseFloat"))
     = Some (Errorf_line ln cs) ->
     (0 < ln <= Z.of_nat (length [header_one; data_line]))%Z).
Proof.
  assert (H1 : (0 <= 0)%Z) by lia.
  assert (H2 : parse (fun _ => None) 1 coeff_zero "1" Earth
                 [header_one; data_line] 0 false
               = Ret (coeff_zero,
                      (1%Z, Some (Errorf_line 2 (Verb "strconv.ParseFloat")))))
    by reflexivity.
  split; [exact H1|]. split; [exact H2|].
  exact (parse_stays_within_the_lines (fun _ => None) 1 coeff_zero "1" Earth
           [header_one; data_line] 0 false coeff_zero 1
           (Some (Errorf_line 2 (Verb "strconv.ParseFloat"))) H1 H2).
Defined.

(** X26.  When [LoadPlanetPath] returns, it returns either a planet and a nil
    error or no planet and an error, never both and never neither; the
    files are as they were; and at most one file was read, the one of
    the planet in the directory [path]. *)
Theorem LoadPlanetPath_result_shape (ParseFloat : string -> option R)
    (fuel : nat) (w : world) (ibody : Z) (path : string)
    (w' : world) (v : option V87Planet) (err : option error) :
  LoadPlanetPath ParseFloat fuel w ibody path = Ret (w', (v, err)) ->
  ((v = None /\ err <> None) \/ (v <> None /\ err = None)) /\
  files w' = files w /\
  (reads w' = reads w \/
   exists e, index ext ibody = Ret e /\
             reads w' = reads w ++ [(path ++ "/VSOP87B." ++ e)%string]).
Proof.
  unfold LoadPlanetPath. intros H.
  destruct ((ibody <? 0)%Z || (ibody >=? nPlanets)%Z)%bool.
  { inversion H. subst. split; [left; split; [reflexivity|discriminate]|].
    split; [reflexivity | left; reflexivity]. }
  destruct (index ext ibody) as [e| |]; cbn [bind] in H; try discriminate H.
  unfold ReadFile in H.
  assert (Hw : forall (v0 : option V87Planet) (err0 : option error),
             Ret ({| files := files w;
                     reads := reads w ++ [(path ++ "/VSOP87B." ++ e)%string] |},
                  (v0, err0)) = Ret (w', (v, err)) ->
             ((v0 = None /\ err0 <> None) \/ (v0 <> None /\ err0 = None)) ->
             ((v = None /\ err <> None) \/ (v <> None /\ err = None)) /\
             files w' = files w /\
             (reads w' = reads w \/
              exists e0, Ret e = Ret e0 /\
                reads w' = reads w ++ [(path ++ "/VSOP87B." ++ e0)%string])).
  { intros v0 err0 H0 Hs. inversion H0. subst. split; [exact Hs|].
    split; [reflexivity|]. right. exists e. split; reflexivity. }
  destruct (files w (path ++ "/VSOP87B." ++ e)) as [data|].
  2:{ apply (Hw _ _ H). left. split; [reflexivity | discriminate]. }
  destruct (parse ParseFloat fuel coeff_zero "1" ibody (Split_nl data) 0 false)
    as [[vl [n1 [e1|]]]| |]; cbn [bind] in H; try discriminate H.
  { apply (Hw _ _ H). left. split; [reflexivity | discriminate]. }
  destruct (parse ParseFloat fuel coeff_zero "2" ibody (Split_nl data) n1 false)
    as [[vb [n2 [e2|]]]| |]; cbn [bind] in H; try discriminate H.
  { apply (Hw _ _ H). left. split; [reflexivity | discriminate]. }
  destruct (parse ParseFloat fuel coeff_zero "3" ibody (Split_nl data) n2 true)
    as [[vr [n3 [e3|]]]| |]; cbn [bind] in H; try discriminate H.
  { apply (Hw _ _ H). left. split; [reflexivity | discriminate]. }
  apply (Hw _ _ H). right. split; [discriminate | reflexivity].
Qed.

Lemma LoadPlanetPath_result_shape_witness :
  let w' := {| files := files (world_of one_block_file);
               reads := ["dir/VSOP87B.ear"%string] |} in
  let v := Some {| v_l := {| pow0 := []; pow1 := [term 1 1 1]; pow2 := [];
                             pow3 := []; pow4 := []; pow5 := [] |};
                   v_b := coeff_zero; v_r := coeff_zero |} in
  LoadPlanetPath (fun _ => Some 1) 2 (world_of one_block_file) Earth "dir"
  = Ret (w', (v, None)) /\
  (((v = None /\ @None error <> None) \/ (v <> None /\ @None error = None)) /\
   files w' = files (world_of one_block_file) /\
   (reads w' = reads (world_of one_block_file) \/
    exists e, index ext Earth = Ret e /\
              reads w' = reads (world_of one_block_file)
                         ++ [("dir" ++ "/VSOP87B." ++ e)%string])).
Proof.
  intros w' v.
  assert (H : LoadPlanetPath (fun _ => Some 1) 2 (world_of one_block_file)
                Earth "dir" = Ret (w', (v, None))) by reflexivity.
  split; [exact H|].
  exact (LoadPlanetPath_result_shape (fun _ => Some 1) 2
           (world_of one_block_file) Earth "dir" w' v None H).
Defined.

Lemma Split_nl_first (data : string) :
  exists first rest, Split_nl data = first :: rest.
Proof.
  induction data as [|ch data IH]; cbn [Split_nl].
  - eexists; eexists; reflexivity.
  - destruct (Ascii.eqb ch newline); [eexists; eexists; reflexivity|].
    destruct IH as [first [rest IH]]. rewrite IH.
    eexists; eexists; reflexivity.
Qed.

(** X27.  A file whose first line has fewer than 132 columns (an empty file,
    a file of another kind) is loaded without an error, as a planet whose
    three tables hold no term. *)
Theorem LoadPlanetPath_short_first_line (ParseFloat : string -> option R)
    (fuel : nat) (w : world) (ibody : Z) (path e data : string) :
  (0 <= ibody < 8)%Z ->
  index ext ibody = Ret e ->
  files w (path ++ "/VSOP87B." ++ e)%string = Some data ->
  (String.length (hd ""%string (Split_nl data)) < 132)%nat ->
  LoadPlanetPath ParseFloat (S fuel) w ibody path
  = Ret ({| files := files w;
            reads := reads w ++ [(path ++ "/VSOP87B." ++ e)%string] |},
         (Some {| v_l := coeff_zero; v_b := coeff_zero; v_r := coeff_zero |},
          None)).
Proof.
  intros Hb He Hf Hshort. unfold LoadPlanetPath, nPlanets.
  destruct (Z.ltb_spec ibody 0) as [Hneg|_]; [lia|].
  destruct (Z.geb_spec ibody 8) as [Hbig|_]; [lia|].
  cbn [orb]. rewrite He. cbn [bind]. unfold ReadFile. rewrite Hf.
  destruct (Split_nl_first data) as [first [rest Hs]].
  rewrite Hs in *. cbn [hd] in Hshort.
  assert (Hp : forall ic au,
             parse ParseFloat (S fuel) coeff_zero ic ibody (first :: rest) 0 au
             = Ret (coeff_zero, (0%Z, None))).
  { intros ic au. cbn [parse].
    change (0 <? Z.of_nat (length (first :: rest)))%Z with true.
    cbv iota. change (index (first :: rest) 0) with (Ret first).
    cbn [bind].
    replace (Nat.ltb (String.length first) 132) with true
      by (symmetry; apply Nat.ltb_lt; exact Hshort).
    reflexivity. }
  rewrite Hp. cbv beta iota zeta delta [bind].
  rewrite Hp. cbv beta iota zeta delta [bind].
  rewrite Hp. reflexivity.
Qed.

Lemma LoadPlanetPath_short_first_line_witness :
  (0 <= Earth < 8)%Z /\
  index ext Earth = Ret "ear"%string /\
  files (world_of "") ("dir" ++ "/VSOP87B." ++ "ear")%string = Some ""%string /\
  (String.length (hd ""%string (Split_nl "")) < 132)%nat /\
  LoadPlanetPath (fun _ => None) 1 (world_of "") Earth "dir"
  = Ret ({| files := files (world_of "");
            reads := reads (world_of "")
                     ++ [("dir" ++ "/VSOP87B." ++ "ear")%string] |},
         (Some {| v_l := coeff_zero; v_b := coeff_zero; v_r := coeff_zero |},
          None)).
Proof.
  assert (H1 : (0 <= Earth < 8)%Z) by (unfold Earth; lia).
  assert (H2 : index ext Earth = Ret "ear"%string) by reflexivity.
  assert (H3 : files (world_of "") ("dir" ++ "/VSOP87B." ++ "ear")%string
               = Some ""%string) by reflexivity.
  assert (H4 : (String.length (hd ""%string (Split_nl "")) < 132)%nat)
    by (cbn; lia).
  split; [exact H1|]. split; [exact H2|]. split; [exact H3|].
  split; [exact H4|].
  exact (LoadPlanetPath_short_first_line (fun _ => None) 0 (world_of "")
           Earth "dir" "ear" "" H1 H2 H3 H4).
Defined.

(** ** Sidereal time and whole circles *)

Lemma wrapped_frac_shift (x : R) :
  exists j : Z,
    (if Rlt_dec (Modf_frac x) 0 then Modf_frac x + 1 else Modf_frac x)
    = x - IZR j.
Proof.
  unfold Modf_frac.
  destruct (Rlt_dec (x - IZR (trunc x)) 0) as [Hneg|Hpos].
  - exists (trunc x - 1)%Z. rewrite minus_IZR. lra.
  - exists (trunc x). reflexivity.
Qed.

Lemma wrapped_frac_periodic (x : R) (j : Z) :
  (if Rlt_dec (Modf_frac (x + IZR j)) 0
   then Modf_frac (x + IZR j) + 1 else Modf_frac (x + IZR j))
  = (if Rlt_dec (Modf_frac x) 0 then Modf_frac x + 1 else Modf_frac x).
Proof.
  pose proof (wrapped_frac_range (x + IZR j)) as H1.
  pose proof (wrapped_frac_range x) as H2.
  destruct (wrapped_frac_shift (x + IZR j)) as [j1 E1].
  destruct (wrapped_frac_shift x) as [j2 E2].
  apply (residue_unique 1 _ _ (j - j1 + j2)%Z); [lra | exact H1 | exact H2 |].
  rewrite E1, E2, plus_IZR, minus_IZR. lra.
Qed.

(** X17.  The longitude of [Lst] is in circles: in exact real arithmetic, a
    whole number of circles more or less gives the same sidereal time. *)
Theorem Lst_whole_circles (mjd long : R) (j : Z) :
  Lst mjd (long + IZR j) = Lst mjd long.
Proof.
  unfold Lst. cbv zeta.
  set (th := (6.6460656
              + (2400.051262 + 0.00002581 * ((mjd - 15019.5) / 36525))
                * ((mjd - 15019.5) / 36525)) / 24).
  set (ut := if Rlt_dec (Modf_frac mjd) 0
             then Modf_frac mjd + 1 else Modf_frac mjd).
  replace (th + ut + (long + IZR j)) with (th + ut + long + IZR j) by ring.
  rewrite wrapped_frac_periodic. reflexivity.
Qed.

(** ** The true anomaly on a circle *)

(** X28.  In exact real arithmetic, with eccentricity 0 the true anomaly is
    the eccentric anomaly, for every eccentric anomaly strictly between
    [-PI] and [PI]. *)
Theorem trueAnomaly_circular (E : R) :
  - PI < E < PI -> trueAnomaly E 0 = E.
Proof.
  intros HE. unfold trueAnomaly.
  replace ((1 + 0) / (1 - 0)) with 1 by field.
  rewrite sqrt_1, Rmult_1_l, atan_tan by lra. field.
Qed.

Lemma trueAnomaly_circular_witness :
  - PI < 1 < PI /\ trueAnomaly 1 0 = 1.
Proof.
  assert (H : - PI < 1 < PI) by (pose proof PI_gt_3; lra).
  split; [exact H|]. exact (trueAnomaly_circular 1 H).
Defined.
